(** * Harmonic Oscillator Challenge: the finite-difference Hamiltonian kernel

    A shallow embedding of the notebook
    [dimensionality-reduction/Harmonic Oscillator Challenge.ipynb]:
    [generate_second_derivative_matrix], [generate_potential_matrix],
    [HO_solver] and the grid set-up cell.

    Modelling conventions.
    - A float64 is modelled by the real number it stands for; rounding,
      infinities and NaN are outside the model.  Statements that divide by
      the grid spacing therefore assume it is not zero.
    - A one-dimensional array is a [list R].  A two-dimensional array is its
      shape together with its entries as a function of the two indices.
    - numpy's array operators build fresh arrays.  The builders are modelled
      by the value they return; [HO_solver] is modelled over an explicit
      object store, because its contract speaks about the state around the
      call.
    - A Python exception is the [Raise] outcome of a [result]. *)

From Stdlib Require Import Reals Lra Lia List ZArith Arith Bool.
Import ListNotations.

Open Scope R_scope.

(** ** Exceptions and the two monads *)

Inductive exn : Type :=
| IndexError
| ValueError
| LinAlgError
| SystemError.

Inductive result (A : Type) : Type :=
| Ok (a : A)
| Raise (e : exn).

Arguments Ok {A} a.
Arguments Raise {A} e.

Class Monad (m : Type -> Type) : Type := {
  ret : forall {A}, A -> m A;
  bind : forall {A B}, m A -> (A -> m B) -> m B
}.

Notation "x <- c ;; k" := (bind c (fun x => k))
  (at level 61, c at next level, right associativity).
Notation "' pat <- c ;; k" := (bind c (fun x => match x with pat => k end))
  (at level 61, pat pattern, c at next level, right associativity).

#[export] Instance result_monad : Monad result := {
  ret := fun A a => Ok a;
  bind := fun A B c k => match c with Ok a => k a | Raise e => Raise e end
}.

(** ** Arrays *)

Record matrix : Type := mkMatrix {
  nrows : nat;
  ncols : nat;
  entry : nat -> nat -> R
}.

(** [a[i]] on a one-dimensional array, for a non-negative index. *)
Definition getitem (a : list R) (i : nat) : result R :=
  match nth_error a i with
  | Some x => Ok x
  | None => Raise IndexError
  end.

(** [a * c], [a / c] and [a ** k] for an array [a] and scalars [c], [k]. *)
Definition amul (a : list R) (c : R) : list R := map (fun x => x * c) a.
Definition adiv (a : list R) (c : R) : list R := map (fun x => x / c) a.
Definition apow (a : list R) (k : nat) : list R := map (fun x => x ^ k) a.

(** [M[i]]: row [i] of a two-dimensional array. *)
Definition getrow (M : matrix) (i : nat) : result (list R) :=
  if (i <? nrows M)%nat then Ok (map (entry M i) (seq 0 (ncols M)))
  else Raise IndexError.

(** The part of numpy the notebook calls. *)
Module np.

  (** [np.ones(n)]: a negative length is a [ValueError]. *)
Definition ones (n : Z) : result (list R) :=
    if (n <? 0)%Z then Raise ValueError else Ok (repeat 1 (Z.to_nat n)).

  (** [np.diag(v, k)] for one-dimensional [v]: a square array of side
      [len(v) + |k|] with [v] on the [k]-th diagonal, zero elsewhere. *)
Definition diag (v : list R) (k : Z) : matrix :=
    let n := (length v + Z.abs_nat k)%nat in
    mkMatrix n n
      (fun i j =>
         if (0 <=? k)%Z
         then if (j =? i + Z.abs_nat k)%nat then nth i v 0 else 0
         else if (i =? j + Z.abs_nat k)%nat then nth j v 0 else 0).

  (** Broadcasting of one axis: equal lengths, or one of them is 1. *)
Definition bdim (a b : nat) : option nat :=
    if (a =? b)%nat then Some a
    else if (a =? 1)%nat then Some b
    else if (b =? 1)%nat then Some a
    else None.

  (** An axis of length 1 is read at index 0 whatever the result index. *)
Definition bidx (a i : nat) : nat := if (a =? 1)%nat then 0%nat else i.

  (** [A + B] with broadcasting; incompatible shapes are a [ValueError]. *)
Definition add (A B : matrix) : result matrix :=
    match bdim (nrows A) (nrows B), bdim (ncols A) (ncols B) with
    | Some r, Some c =>
        Ok (mkMatrix r c
              (fun i j =>
                 entry A (bidx (nrows A) i) (bidx (ncols A) j)
                 + entry B (bidx (nrows B) i) (bidx (ncols B) j)))
    | _, _ => Raise ValueError
    end.

  (** [-A] and [c * A]. *)
Definition neg (A : matrix) : matrix :=
    mkMatrix (nrows A) (ncols A) (fun i j => - entry A i j).

Definition scale (c : R) (A : matrix) : matrix :=
    mkMatrix (nrows A) (ncols A) (fun i j => c * entry A i j).

  (** [A.T]. *)
Definition transpose (A : matrix) : matrix :=
    mkMatrix (ncols A) (nrows A) (fun i j => entry A j i).

  (** [np.linspace(start, stop, num)] with the default [endpoint=True]:
      [num] samples [start + i * step], the last one set to [stop]. *)
Definition linspace (start stop : R) (num : Z) : result (list R) :=
    if (num <? 0)%Z then Raise ValueError
    else
      let n := Z.to_nat num in
      let step := (stop - start) / INR (n - 1) in
      Ok (match n with
          | O => []
          | S O => [start]
          | S m => map (fun i => start + INR i * step) (seq 0 m) ++ [stop]
          end).

  (** [np.linalg.eigh(a)].  The array must be square, otherwise numpy raises
      [LinAlgError]; the decomposition itself is LAPACK's symmetric driver
      [syevd], which is not part of the notebook and is taken as a parameter.
      It either returns the eigenvalues and the matrix whose columns are the
      eigenvectors, or raises [LinAlgError] when it does not converge. *)
Module linalg.
Definition eigh (syevd : matrix -> result (list R * matrix)) (a : matrix)
      : result (list R * matrix) :=
      if (nrows a =? ncols a)%nat then syevd a else Raise LinAlgError.
End linalg.

End np.

(** ** The notebook's builders *)

Definition generate_second_derivative_matrix (xgrid : list R) : result matrix :=
  let N := Z.of_nat (length xgrid) in
  x1 <- getitem xgrid 1 ;;
  x0 <- getitem xgrid 0 ;;
  let dx := x1 - x0 in
  o0 <- np.ones N ;;
  let main_diag := amul o0 ((-5) / 2 / dx ^ 2) in
  o1 <- np.ones (N - 1) ;;
  let off_diag := adiv (adiv (amul o1 4) 3) (dx ^ 2) in
  o2 <- np.ones (N - 2) ;;
  let off_diag2 := amul o2 ((-1) / (12 * dx ^ 2)) in
  s1 <- np.add (np.diag main_diag 0) (np.diag off_diag 1) ;;
  s2 <- np.add s1 (np.diag off_diag (-1)) ;;
  s3 <- np.add s2 (np.diag off_diag2 2) ;;
  np.add s3 (np.diag off_diag2 (-2)).

Definition generate_potential_matrix (xgrid : list R) : matrix :=
  np.diag (apow xgrid 2) 0.

(** The grid set-up cell: [x = np.linspace(-x_max, x_max, N_grid)]. *)
Definition buildGrid (x_max : R) (N_grid : Z) : result (list R) :=
  np.linspace (- x_max) x_max N_grid.

(** ** The object store

    The store holds the two-dimensional arrays of the session; a location is
    an index into it and allocation appends.  One-dimensional results are
    passed by value.  An exception leaves the store as it was when raised. *)

Definition loc : Type := nat.
Definition store : Type := list matrix.
Definition M (A : Type) : Type := store -> result A * store.

#[export] Instance M_monad : Monad M := {
  ret := fun A a s => (Ok a, s);
  bind := fun A B c k s =>
            match c s with
            | (Ok a, s') => k a s'
            | (Raise e, s') => (Raise e, s')
            end
}.

Definition lift {A : Type} (r : result A) : M A := fun s => (r, s).

(** Python has no dangling reference; a location outside the store is given
    the interpreter's [SystemError]. *)
Definition deref (l : loc) : M matrix :=
  fun s => match nth_error s l with
           | Some A => (Ok A, s)
           | None => (Raise SystemError, s)
           end.

Definition alloc (A : matrix) : M loc :=
  fun s => (Ok (length s), s ++ [A]).

(** The array operators on stored arrays: each reads its operands and
    allocates its result. *)
Definition neg_ (a : loc) : M loc :=
  A <- deref a ;; alloc (np.neg A).

Definition scale_ (c : R) (a : loc) : M loc :=
  A <- deref a ;; alloc (np.scale c A).

Definition add_ (a b : loc) : M loc :=
  A <- deref a ;; B <- deref b ;; C <- lift (np.add A B) ;; alloc C.

Section Solver.

Variable syevd : matrix -> result (list R * matrix).

(** [np.linalg.eigh] on a stored array: the eigenvalues by value, the
    eigenvector matrix as a fresh array. *)
Definition eigh_ (a : loc) : M (list R * loc) :=
  A <- deref a ;;
  ' (w, U) <- lift (np.linalg.eigh syevd A) ;;
  u <- alloc U ;;
  ret (w, u).

(** [H = -D2Mat + alpha*vpot]; [evals, evects = np.linalg.eigh(H)];
    [return [evals[0], evects.T[0]]]. *)
Definition HO_solver (alpha : R) (D2Mat vpot : loc) : M (R * list R) :=
  t1 <- neg_ D2Mat ;;
  t2 <- scale_ alpha vpot ;;
  H <- add_ t1 t2 ;;
  ' (evals, evects) <- eigh_ H ;;
  e0 <- lift (getitem evals 0) ;;
  U <- deref evects ;;
  v0 <- lift (getrow (np.transpose U) 0) ;;
  ret (e0, v0).

End Solver.

(** Running a call from a store: its outcome and the store it leaves. *)
Definition outcome {A : Type} (c : M A) (s : store) : result A := fst (c s).
Definition final {A : Type} (c : M A) (s : store) : store := snd (c s).

(** The call unfolded on a store that holds [D] at [D2Mat] and [V] at [vpot]:
    the outcome and the arrays appended, step by step.  [HO_solver_run]
    proves that [HO_solver] computes exactly this. *)
Definition HO_solver_trace (syevd : matrix -> result (list R * matrix))
    (alpha : R) (D V : matrix) (s : store) : result (R * list R) * store :=
  let s2 := (s ++ [np.neg D]) ++ [np.scale alpha V] in
  match np.add (np.neg D) (np.scale alpha V) with
  | Raise e => (Raise e, s2)
  | Ok H =>
      match np.linalg.eigh syevd H with
      | Raise e => (Raise e, s2 ++ [H])
      | Ok (w, U) =>
          let s4 := (s2 ++ [H]) ++ [U] in
          match getitem w 0 with
          | Raise e => (Raise e, s4)
          | Ok e0 =>
              match getrow (np.transpose U) 0 with
              | Raise e => (Raise e, s4)
              | Ok v0 => (Ok (e0, v0), s4)
              end
          end
      end
  end.

(** ** The notebook's cells

    The grid cell ([x = np.linspace(-x_max, x_max, N_grid)],
    [D20 = generate_second_derivative_matrix(x)],
    [V0 = generate_potential_matrix(x)]) and the plotting cell
    ([plt.plot(x, HO_solver(2, D20, V0)[1])]).  The notebook sets
    [x_max = 10.0], [N_grid = 150] and passes [2] for [alpha]; they are
    parameters here.  The plot itself is matplotlib's; the model stops at the
    two arrays handed to it. *)

Definition grid_cell (x_max : R) (N_grid : Z) : M (list R * loc * loc) :=
  x <- lift (buildGrid x_max N_grid) ;;
  D <- lift (generate_second_derivative_matrix x) ;;
  D20 <- alloc D ;;
  V0 <- alloc (generate_potential_matrix x) ;;
  ret (x, D20, V0).

Definition plot_cell (syevd : matrix -> result (list R * matrix))
    (alpha : R) (x : list R) (D20 V0 : loc) : M (list R * list R) :=
  r <- HO_solver syevd alpha D20 V0 ;;
  ret (x, snd r).

Definition notebook (syevd : matrix -> result (list R * matrix))
    (x_max : R) (N_grid : Z) (alpha : R) : M (list R * list R) :=
  ' (x, D20, V0) <- grid_cell x_max N_grid ;;
  plot_cell syevd alpha x D20 V0.

(** ** Vocabulary of the specification *)

(** [rsum n f] is [f 0 + ... + f (n-1)]. *)
Fixpoint rsum (n : nat) (f : nat -> R) : R :=
  match n with
  | O => 0
  | S k => rsum k f + f k
  end.

Definition has_shape (A : matrix) (r c : nat) : Prop :=
  nrows A = r /\ ncols A = c.

Definition symmetric (A : matrix) : Prop :=
  nrows A = ncols A /\
  forall i j, (i < nrows A)%nat -> (j < nrows A)%nat -> entry A i j = entry A j i.

(** Component [i] of the product of [A] with the vector [x]. *)
Definition mulvec (A : matrix) (x : list R) (i : nat) : R :=
  rsum (ncols A) (fun k => entry A i k * nth k x 0).

Definition eigenpair (A : matrix) (lam : R) (x : list R) : Prop :=
  length x = nrows A /\
  (exists i, (i < nrows A)%nat /\ nth i x 0 <> 0) /\
  forall i, (i < nrows A)%nat -> mulvec A x i = lam * nth i x 0.

Definition eigenvalue (A : matrix) (lam : R) : Prop :=
  exists x, eigenpair A lam x.

Definition min_eigenvalue (A : matrix) (lam : R) : Prop :=
  eigenvalue A lam /\ forall mu, eigenvalue A mu -> lam <= mu.

(** Euclidean norm of a vector. *)
Definition norm2 (x : list R) : R :=
  sqrt (rsum (length x) (fun i => nth i x 0 * nth i x 0)).

(** The Hamiltonian of the specification, [H = -D2 + alpha * V], entry by
    entry on the shape of [D2]. *)
Definition hamiltonian (alpha : R) (D2 V : matrix) : matrix :=
  mkMatrix (nrows D2) (ncols D2)
    (fun i j => - entry D2 i j + alpha * entry V i j).

Definition delta (i j : nat) : R := if (i =? j)%nat then 1 else 0.

(** What numpy documents for [eigh] on a real symmetric [A]: the eigenvalues
    in ascending order, and an orthogonal matrix whose column [j] is an
    eigenvector for eigenvalue [j]. *)
Record eigh_contract (A : matrix) (w : list R) (U : matrix) : Prop := {
  ec_length : length w = nrows A;
  ec_shape : has_shape U (nrows A) (nrows A);
  ec_ascending :
    forall i j, (i <= j)%nat -> (j < nrows A)%nat -> nth i w 0 <= nth j w 0;
  ec_columns :
    forall i j, (i < nrows A)%nat -> (j < nrows A)%nat ->
      rsum (nrows A) (fun k => entry A i k * entry U k j)
      = nth j w 0 * entry U i j;
  ec_orth_cols :
    forall j j', (j < nrows A)%nat -> (j' < nrows A)%nat ->
      rsum (nrows A) (fun i => entry U i j * entry U i j') = delta j j';
  ec_orth_rows :
    forall i i', (i < nrows A)%nat -> (i' < nrows A)%nat ->
      rsum (nrows A) (fun j => entry U i j * entry U i' j) = delta i i'
}.

(** Column [j] of [U], as a vector. *)
Definition column (U : matrix) (j : nat) : list R :=
  map (fun i => entry U i j) (seq 0 (nrows U)).

(** The part of the contract that concerns the norm alone, with the rounding
    of the library left open: every column of [U] has Euclidean norm within
    [tol] of 1. *)
Definition columns_normalized (U : matrix) (tol : R) : Prop :=
  forall j, (j < ncols U)%nat -> Rabs (norm2 (column U j) - 1) <= tol.

(** A grid with constant spacing [dx]. *)
Definition uniform (xgrid : list R) (dx : R) : Prop :=
  forall i, (S i < length xgrid)%nat ->
    nth (S i) xgrid 0 - nth i xgrid 0 = dx.

(** The spacing the code reads: [xgrid[1] - xgrid[0]]. *)
Definition first_spacing (xgrid : list R) : R :=
  nth 1 xgrid 0 - nth 0 xgrid 0.

(** Distance of an entry from the main diagonal. *)
Definition offset (i j : nat) : nat := ((i - j) + (j - i))%nat.

(** The five-point stencil as the specification words it. *)
Definition five_point_stencil (dx : R) (i j : nat) : R :=
  match offset i j with
  | 0%nat => - 5 / (2 * dx ^ 2)
  | 1%nat => 4 / (3 * dx ^ 2)
  | 2%nat => - 1 / (12 * dx ^ 2)
  | _ => 0
  end.

(** Two shapes numpy can add: each axis agrees or one side has length 1. *)
Definition broadcastable (A B : matrix) : Prop :=
  np.bdim (nrows A) (nrows B) <> None /\ np.bdim (ncols A) (ncols B) <> None.

Definition same_shape (A B : matrix) : Prop :=
  nrows A = nrows B /\ ncols A = ncols B.

(** A two-dimensional array given by its rows, for concrete inputs. *)
Definition of_rows (r c : nat) (rows : list (list R)) : matrix :=
  mkMatrix r c (fun i j => nth j (nth i rows []) 0).

(** Two arrays of one shape with the same entries. *)
Definition agree (A B : matrix) : Prop :=
  same_shape A B /\
  forall i j, (i < nrows A)%nat -> (j < ncols A)%nat ->
    entry A i j = entry B i j.

(** Zero off the main diagonal. *)
Definition diagonal (A : matrix) : Prop :=
  forall i j, (i < nrows A)%nat -> (j < ncols A)%nat -> i <> j ->
    entry A i j = 0.

(** A vector read at an integer index, zero outside its range. *)
Definition at_or_zero (v : list R) (k : Z) : R :=
  if (k <? 0)%Z then 0 else nth (Z.to_nat k) v 0.

(** The five-point stencil applied to [v] at row [i], with [v] read as zero
    outside the grid. *)
Definition stencil_at (dx : R) (v : list R) (i : nat) : R :=
  let k := Z.of_nat i in
  (- 5 / 2 * at_or_zero v k
   + 4 / 3 * (at_or_zero v (k - 1) + at_or_zero v (k + 1))
   - 1 / 12 * (at_or_zero v (k - 2) + at_or_zero v (k + 2))) / dx ^ 2.

(** A polynomial of degree at most five, its first and its second
    derivative. *)
Definition quintic (a0 a1 a2 a3 a4 a5 x : R) : R :=
  a0 + a1 * x + a2 * x ^ 2 + a3 * x ^ 3 + a4 * x ^ 4 + a5 * x ^ 5.

Definition quintic_d (a1 a2 a3 a4 a5 x : R) : R :=
  a1 + 2 * a2 * x + 3 * a3 * x ^ 2 + 4 * a4 * x ^ 3 + 5 * a5 * x ^ 4.

Definition quintic_dd (a2 a3 a4 a5 x : R) : R :=
  2 * a2 + 6 * a3 * x + 12 * a4 * x ^ 2 + 20 * a5 * x ^ 3.

(** ** Concrete inputs

    A five-point grid, two pairs of small operands, and for each pair a
    decomposition routine that returns what LAPACK returns on the matrix
    the solver builds from it. *)

Definition grid5 : list R := [-2; -1; 0; 1; 2].

Definition identity2 : matrix := of_rows 2 2 [[1; 0]; [0; 1]].

(** [H = -D_ex + 1 * V_ex] is the diagonal matrix of 3 and 6. *)
Definition D_ex : matrix := of_rows 2 2 [[-2; 0]; [0; -2]].
Definition V_ex : matrix := of_rows 2 2 [[1; 0]; [0; 4]].
Definition syevd_ex (a : matrix) : result (list R * matrix) :=
  Ok ([3; 6], identity2).

(** A 2 by 2 and a 1 by 1 operand: [-D_swap + 1 * V_one] broadcasts to the
    identity matrix. *)
Definition D_swap : matrix := of_rows 2 2 [[0; 1]; [1; 0]].
Definition V_one : matrix := of_rows 1 1 [[1]].
Definition syevd_identity2 (a : matrix) : result (list R * matrix) :=
  Ok ([1; 1], identity2).

(** The empty array, and a decomposition that returns nothing for it. *)
Definition empty_matrix : matrix := of_rows 0 0 [].
Definition syevd_empty (a : matrix) : result (list R * matrix) :=
  Ok ([], empty_matrix).

(** The notebook on the two-point grid [-1, 1] with [alpha = 2]: the
    Hamiltonian has 21/8 on the diagonal and -1/3 off it, eigenvalues 55/24
    and 71/24, eigenvectors (1, 1)/sqrt 2 and (1, -1)/sqrt 2. *)
Definition inv_sqrt2 : R := / sqrt 2.
Definition U_two : matrix :=
  of_rows 2 2 [[inv_sqrt2; inv_sqrt2]; [inv_sqrt2; - inv_sqrt2]].
Definition syevd_two (a : matrix) : result (list R * matrix) :=
  Ok ([55 / 24; 71 / 24], U_two).

(** Case analysis on two indices below 2. *)
Ltac two_indices i j Hi Hj :=
  simpl in Hi, Hj;
  destruct i as [| [| i]]; try lia;
  destruct j as [| [| j]]; try lia.

(** ** Arrays: basic facts *)

Lemma ones_nonneg (n : Z) :
  (0 <= n)%Z -> np.ones n = Ok (repeat 1 (Z.to_nat n)).
Proof.
  intros Hn. unfold np.ones.
  destruct (Z.ltb_spec n 0); [lia | reflexivity].
Qed.

Lemma bdim_same (n : nat) : np.bdim n n = Some n.
Proof. unfold np.bdim. now rewrite Nat.eqb_refl. Qed.

Lemma bidx_in_range (n i : nat) : (i < n)%nat -> np.bidx n i = i.
Proof.
  intros Hi. unfold np.bidx.
  destruct (Nat.eqb_spec n 1); [lia | reflexivity].
Qed.

(** Adding two arrays of one shape is entrywise and cannot raise. *)
Lemma add_same_shape (A B : matrix) :
  same_shape A B ->
  exists C, np.add A B = Ok C /\
    has_shape C (nrows A) (ncols A) /\
    forall i j, (i < nrows A)%nat -> (j < ncols A)%nat ->
      entry C i j = entry A i j + entry B i j.
Proof.
  intros [Hr Hc]. unfold np.add.
  rewrite <- Hr, <- Hc, !bdim_same.
  eexists. split; [reflexivity |]. split; [split; reflexivity |].
  intros i j Hi Hj. simpl.
  now rewrite !bidx_in_range.
Qed.

Lemma nth_repeat_map (f : R -> R) (c : R) (n i : nat) :
  (i < n)%nat -> nth i (map f (repeat c n)) 0 = f c.
Proof.
  revert i. induction n as [| n IH]; intros i Hi; [lia |].
  destruct i as [| i]; simpl; [reflexivity | apply IH; lia].
Qed.

Lemma diag_entry_nonneg (c : R) (f : R -> R) (n k i j : nat) :
  (i < n + k)%nat -> (j < n + k)%nat ->
  entry (np.diag (map f (repeat c n)) (Z.of_nat k)) i j
  = if (j =? i + k)%nat then f c else 0.
Proof.
  intros Hi Hj. unfold np.diag. simpl.
  destruct (Z.leb_spec 0 (Z.of_nat k)); [| lia].
  rewrite Zabs2Nat.id.
  destruct (Nat.eqb_spec j (i + k)); [| reflexivity].
  apply nth_repeat_map. lia.
Qed.

Lemma diag_entry_neg (c : R) (f : R -> R) (n k i j : nat) :
  (0 < k)%nat -> (i < n + k)%nat -> (j < n + k)%nat ->
  entry (np.diag (map f (repeat c n)) (- Z.of_nat k)) i j
  = if (i =? j + k)%nat then f c else 0.
Proof.
  intros Hk Hi Hj. unfold np.diag. simpl.
  destruct (Z.leb_spec 0 (- Z.of_nat k)); [lia |].
  replace (Z.abs_nat (- Z.of_nat k)) with k by lia.
  destruct (Nat.eqb_spec i (j + k)); [| reflexivity].
  apply nth_repeat_map. lia.
Qed.

Lemma diag_shape_of (v : list R) (k : Z) (n : nat) :
  (length v + Z.abs_nat k)%nat = n -> has_shape (np.diag v k) n n.
Proof. intros <-. split; reflexivity. Qed.


Lemma off_diag_map (n : nat) (c : R) :
  adiv (adiv (amul (repeat 1 n) 4) 3) c
  = map (fun x => x * 4 / 3 / c) (repeat 1 n).
Proof. unfold adiv, amul. now rewrite !map_map. Qed.

Lemma gsdm_entries (xgrid : list R) :
  (2 <= length xgrid)%nat ->
  let N := length xgrid in
  let dx := first_spacing xgrid in
  exists D2, generate_second_derivative_matrix xgrid = Ok D2 /\
    has_shape D2 N N /\
    forall i j, (i < N)%nat -> (j < N)%nat ->
      entry D2 i j
      = (if (j =? i)%nat then 1 * ((-5) / 2 / dx ^ 2) else 0)
        + (if (j =? i + 1)%nat then 1 * 4 / 3 / dx ^ 2 else 0)
        + (if (i =? j + 1)%nat then 1 * 4 / 3 / dx ^ 2 else 0)
        + (if (j =? i + 2)%nat then 1 * ((-1) / (12 * dx ^ 2)) else 0)
        + (if (i =? j + 2)%nat then 1 * ((-1) / (12 * dx ^ 2)) else 0).
Proof.
  intros HN N dx.
  destruct xgrid as [| x0 [| x1 rest]]; simpl in HN; try lia.
  unfold generate_second_derivative_matrix.
  cbn [getitem nth_error bind result_monad].
  assert (HN2 : (2 <= N)%nat) by (subst N; simpl; lia).
  fold N. change (x1 - x0) with dx. clearbody N dx.
  rewrite (@ones_nonneg (Z.of_nat N)) by lia.
  rewrite (@ones_nonneg (Z.of_nat N - 1)) by lia.
  rewrite (@ones_nonneg (Z.of_nat N - 2)) by lia.
  cbn [bind result_monad].
  replace (Z.to_nat (Z.of_nat N)) with N by lia.
  replace (Z.to_nat (Z.of_nat N - 1)) with (N - 1)%nat by lia.
  replace (Z.to_nat (Z.of_nat N - 2)) with (N - 2)%nat by lia.
  rewrite off_diag_map. unfold amul.
  set (m0 := np.diag _ 0).
  set (u1 := np.diag _ 1).
  set (l1 := np.diag _ (-1)).
  set (u2 := np.diag _ 2).
  set (l2 := np.diag _ (-2)).
  assert (S0 : has_shape m0 N N)
    by (subst m0; apply diag_shape_of; rewrite length_map, repeat_length; lia).
  assert (Su1 : has_shape u1 N N)
    by (subst u1; apply diag_shape_of; rewrite length_map, repeat_length; lia).
  assert (Sl1 : has_shape l1 N N)
    by (subst l1; apply diag_shape_of; rewrite length_map, repeat_length; lia).
  assert (Su2 : has_shape u2 N N)
    by (subst u2; apply diag_shape_of; rewrite length_map, repeat_length; lia).
  assert (Sl2 : has_shape l2 N N)
    by (subst l2; apply diag_shape_of; rewrite length_map, repeat_length; lia).
  destruct S0 as [R0 C0], Su1 as [Ru1 Cu1], Sl1 as [Rl1 Cl1],
    Su2 as [Ru2 Cu2], Sl2 as [Rl2 Cl2].
  destruct (@add_same_shape m0 u1) as (s1 & E1 & [R1 C1] & F1);
    [split; congruence |]; rewrite E1.
  destruct (@add_same_shape s1 l1) as (s2 & E2 & [R2 C2] & F2);
    [split; congruence |]; rewrite E2.
  destruct (@add_same_shape s2 u2) as (s3 & E3 & [R3 C3] & F3);
    [split; congruence |]; rewrite E3.
  destruct (@add_same_shape s3 l2) as (s4 & E4 & [R4 C4] & F4);
    [split; congruence |]; rewrite E4.
  exists s4. split; [reflexivity |]. split; [split; congruence |].
  intros i j Hi Hj.
  rewrite F4, F3, F2, F1 by congruence.
  subst m0 u1 l1 u2 l2.
  rewrite (@diag_entry_nonneg 1 _ N 0) by lia.
  rewrite (@diag_entry_nonneg 1 _ (N - 1) 1) by lia.
  rewrite (@diag_entry_neg 1 _ (N - 1) 1) by lia.
  rewrite (@diag_entry_nonneg 1 _ (N - 2) 2) by lia.
  rewrite (@diag_entry_neg 1 _ (N - 2) 2) by lia.
  rewrite Nat.add_0_r. reflexivity.
Qed.

Lemma uniform_first_spacing (xgrid : list R) (dx : R) :
  (2 <= length xgrid)%nat -> uniform xgrid dx -> first_spacing xgrid = dx.
Proof. intros HN Hu. unfold first_spacing. apply Hu. lia. Qed.

(** The sum of the five diagonals the code builds is the stencil. *)
Lemma five_diagonals_stencil (dx : R) (i j : nat) :
  dx <> 0 ->
  (if (j =? i)%nat then 1 * ((-5) / 2 / dx ^ 2) else 0)
  + (if (j =? i + 1)%nat then 1 * 4 / 3 / dx ^ 2 else 0)
  + (if (i =? j + 1)%nat then 1 * 4 / 3 / dx ^ 2 else 0)
  + (if (j =? i + 2)%nat then 1 * ((-1) / (12 * dx ^ 2)) else 0)
  + (if (i =? j + 2)%nat then 1 * ((-1) / (12 * dx ^ 2)) else 0)
  = five_point_stencil dx i j.
Proof.
  intros Hdx. unfold five_point_stencil.
  destruct (Nat.eqb_spec j i) as [E0 | N0];
    destruct (Nat.eqb_spec j (i + 1)) as [E1 | N1];
    destruct (Nat.eqb_spec i (j + 1)) as [E2 | N2];
    destruct (Nat.eqb_spec j (i + 2)) as [E3 | N3];
    destruct (Nat.eqb_spec i (j + 2)) as [E4 | N4];
    try lia.
  - replace (offset i j) with 0%nat by (unfold offset; lia). field. exact Hdx.
  - replace (offset i j) with 1%nat by (unfold offset; lia). field. exact Hdx.
  - replace (offset i j) with 1%nat by (unfold offset; lia). field. exact Hdx.
  - replace (offset i j) with 2%nat by (unfold offset; lia). field. exact Hdx.
  - replace (offset i j) with 2%nat by (unfold offset; lia). field. exact Hdx.
  - assert (Ho : (3 <= offset i j)%nat) by (unfold offset; lia).
    destruct (offset i j) as [| [| [| k]]]; try lia. lra.
Qed.

Lemma gsdm_stencil (xgrid : list R) (dx : R) :
  (2 <= length xgrid)%nat -> uniform xgrid dx -> dx <> 0 ->
  exists D2, generate_second_derivative_matrix xgrid = Ok D2 /\
    has_shape D2 (length xgrid) (length xgrid) /\
    forall i j, (i < length xgrid)%nat -> (j < length xgrid)%nat ->
      entry D2 i j = five_point_stencil dx i j.
Proof.
  intros HN Hu Hdx.
  destruct (gsdm_entries xgrid HN) as (D2 & E & Hs & F).
  rewrite (uniform_first_spacing xgrid dx HN Hu) in F.
  exists D2. split; [exact E |]. split; [exact Hs |].
  intros i j Hi Hj. rewrite F by assumption.
  now apply five_diagonals_stencil.
Qed.

(** C2.  On a uniform grid of [N >= 5] points with spacing [dx], the matrix
    built by [generate_second_derivative_matrix] is [N] by [N]; its entries
    are [-5/(2 dx^2)] on the main diagonal, [4/(3 dx^2)] on the diagonals
    +1 and -1, [-1/(12 dx^2)] on the diagonals +2 and -2 and [0] elsewhere.
    The same formula holds in the first and last two rows: the stencil is
    cut at the border, every entry further than two from the diagonal is
    zero, so nothing wraps around or is reflected. *)
Theorem second_derivative_stencil (xgrid : list R) (dx : R) :
  (5 <= length xgrid)%nat -> uniform xgrid dx -> dx <> 0 ->
  let N := length xgrid in
  exists D2, generate_second_derivative_matrix xgrid = Ok D2 /\
    has_shape D2 N N /\
    (forall i j, (i < N)%nat -> (j < N)%nat ->
       entry D2 i j = five_point_stencil dx i j) /\
    (forall i j, (i < N)%nat -> (j < N)%nat -> (2 < offset i j)%nat ->
       entry D2 i j = 0) /\
    entry D2 0 (N - 1) = 0 /\ entry D2 (N - 1) 0 = 0 /\
    entry D2 0 1 = 4 / (3 * dx ^ 2) /\ entry D2 0 2 = - 1 / (12 * dx ^ 2).
Proof.
  intros HN Hu Hdx N.
  destruct (gsdm_stencil xgrid dx) as (D2 & E & Hs & G);
    [lia | exact Hu | exact Hdx |].
  fold N in G.
  exists D2. split; [exact E |]. split; [exact Hs |]. split; [exact G |].
  assert (Z : forall i j, (i < N)%nat -> (j < N)%nat -> (2 < offset i j)%nat ->
                entry D2 i j = 0).
  { intros i j Hi Hj Ho. rewrite G by assumption. unfold five_point_stencil.
    destruct (offset i j) as [| [| [| k]]]; try lia. reflexivity. }
  split; [exact Z |].
  subst N.
  repeat split.
  - apply Z; unfold offset; lia.
  - apply Z; unfold offset; lia.
  - rewrite G by lia. reflexivity.
  - rewrite G by lia. reflexivity.
Qed.

(** ** The store: reading and allocating *)

Lemma nth_error_extend (s ext : store) (l : loc) (A : matrix) :
  nth_error s l = Some A -> nth_error (s ++ ext) l = Some A.
Proof.
  intros H. rewrite nth_error_app1; [exact H |].
  apply nth_error_Some. congruence.
Qed.

Lemma nth_error_fresh (s : store) (A : matrix) :
  nth_error (s ++ [A]) (length s) = Some A.
Proof. now rewrite nth_error_app2, Nat.sub_diag by lia. Qed.

Lemma deref_run (s : store) (l : loc) (A : matrix) :
  nth_error s l = Some A -> deref l s = (Ok A, s).
Proof. intros H. unfold deref. now rewrite H. Qed.

Lemma HO_solver_run (syevd : matrix -> result (list R * matrix))
    (alpha : R) (d v : loc) (D V : matrix) (s : store) :
  nth_error s d = Some D -> nth_error s v = Some V ->
  HO_solver syevd alpha d v s = HO_solver_trace syevd alpha D V s.
Proof.
  intros Hd Hv.
  unfold HO_solver, HO_solver_trace, neg_, scale_, add_, eigh_.
  cbn [bind M_monad ret].
  rewrite (deref_run _ _ _ Hd). unfold alloc at 1.
  rewrite (deref_run _ _ _ (nth_error_extend _ [np.neg D] _ _ Hv)). unfold alloc at 1.
  rewrite (deref_run _ _ _ (nth_error_extend _ [np.scale alpha V] _ _
                              (nth_error_fresh s (np.neg D)))).
  rewrite (deref_run _ _ _ (nth_error_fresh _ (np.scale alpha V))).
  unfold lift at 1.
  destruct (np.add (np.neg D) (np.scale alpha V)) as [H | e]; [| reflexivity].
  unfold alloc at 1.
  rewrite (deref_run _ _ _ (nth_error_fresh _ H)).
  unfold lift at 1.
  destruct (np.linalg.eigh syevd H) as [[w U] | e]; [| reflexivity].
  unfold alloc at 1. unfold lift at 1.
  destruct (getitem w 0) as [e0 | e]; [| reflexivity].
  rewrite (deref_run _ _ _ (nth_error_fresh _ U)).
  unfold lift.
  destruct (getrow (np.transpose U) 0) as [v0 | e]; reflexivity.
Qed.

(** ** Finite sums *)

Lemma rsum_ext (n : nat) (f g : nat -> R) :
  (forall i, (i < n)%nat -> f i = g i) -> rsum n f = rsum n g.
Proof.
  induction n as [| n IH]; intros H; simpl; [reflexivity |].
  rewrite IH by (intros i Hi; apply H; lia).
  rewrite (H n) by lia. reflexivity.
Qed.

Lemma rsum_zero (n : nat) (f : nat -> R) :
  (forall i, (i < n)%nat -> f i = 0) -> rsum n f = 0.
Proof.
  induction n as [| n IH]; intros H; simpl; [reflexivity |].
  rewrite IH by (intros i Hi; apply H; lia).
  rewrite (H n) by lia. lra.
Qed.

Lemma rsum_plus (n : nat) (f g : nat -> R) :
  rsum n (fun i => f i + g i) = rsum n f + rsum n g.
Proof. induction n as [| n IH]; simpl; [lra | rewrite IH; lra]. Qed.

Lemma rsum_scal (n : nat) (c : R) (f : nat -> R) :
  rsum n (fun i => c * f i) = c * rsum n f.
Proof. induction n as [| n IH]; simpl; [lra | rewrite IH; lra]. Qed.

Lemma rsum_swap (n m : nat) (f : nat -> nat -> R) :
  rsum n (fun i => rsum m (fun j => f i j))
  = rsum m (fun j => rsum n (fun i => f i j)).
Proof.
  induction n as [| n IH]; simpl.
  - symmetry. apply rsum_zero. reflexivity.
  - rewrite IH, <- rsum_plus. reflexivity.
Qed.

Lemma rsum_delta (n i : nat) (f : nat -> R) :
  (i < n)%nat -> rsum n (fun j => delta i j * f j) = f i.
Proof.
  induction n as [| n IH]; intros Hi; [lia |]. simpl.
  destruct (Nat.eq_dec i n) as [-> | Hne].
  - rewrite rsum_zero.
    + unfold delta. rewrite Nat.eqb_refl. lra.
    + intros j Hj. unfold delta.
      destruct (Nat.eqb_spec n j); [lia | lra].
  - rewrite IH by lia. unfold delta at 1.
    destruct (Nat.eqb_spec i n); [lia | lra].
Qed.

Lemma rsum_nonzero (n : nat) (f : nat -> R) :
  rsum n f <> 0 -> exists i, (i < n)%nat /\ f i <> 0.
Proof.
  induction n as [| n IH]; simpl; intros H; [lra |].
  destruct (Req_dec (f n) 0) as [Hz | Hnz].
  - destruct IH as (i & Hi & Hf); [rewrite Hz in H; lra |].
    exists i. split; [lia | exact Hf].
  - exists n. split; [lia | exact Hnz].
Qed.

Lemma all_zero_or_not (n : nat) (c : nat -> R) :
  (forall j, (j < n)%nat -> c j = 0) \/ (exists j, (j < n)%nat /\ c j <> 0).
Proof.
  induction n as [| n [IH | (j & Hj & Hc)]].
  - left. intros j Hj. lia.
  - destruct (Req_dec (c n) 0) as [Hz | Hnz].
    + left. intros j Hj.
      destruct (Nat.eq_dec j n) as [-> | Hne]; [exact Hz | apply IH; lia].
    + right. exists n. split; [lia | exact Hnz].
  - right. exists j. split; [lia | exact Hc].
Qed.

Lemma nth_map_seq (f : nat -> R) (n i : nat) :
  (i < n)%nat -> nth i (map f (seq 0 n)) 0 = f i.
Proof.
  intros Hi.
  rewrite (nth_indep _ 0 (f 0%nat)) by (now rewrite length_map, length_seq).
  rewrite (map_nth f (seq 0 n) 0%nat i), seq_nth by exact Hi.
  reflexivity.
Qed.

(** ** The spectral argument

    For a symmetric [A] and a decomposition [(w, U)] that meets the contract
    of [eigh], the first eigenvalue is the least one and the first column of
    [U] is an eigenvector for it. *)

Section Spectral.

Variable A : matrix.
Variable w : list R.
Variable U : matrix.
Hypothesis A_sym : symmetric A.
Hypothesis A_nonempty : (0 < nrows A)%nat.
Hypothesis dec : eigh_contract A w U.

Local Abbreviation n := (nrows A).

Lemma column_nth (j i : nat) :
  (i < n)%nat -> nth i (column U j) 0 = entry U i j.
Proof.
  intros Hi. unfold column.
  destruct (ec_shape _ _ _ dec) as [Hr _]. rewrite Hr.
  now rewrite (nth_map_seq (fun i => entry U i j)).
Qed.

Lemma column_length (j : nat) : length (column U j) = n.
Proof.
  unfold column. destruct (ec_shape _ _ _ dec) as [Hr _].
  now rewrite length_map, length_seq.
Qed.

Lemma column_eigenpair (j : nat) :
  (j < n)%nat -> eigenpair A (nth j w 0) (column U j).
Proof.
  intros Hj. destruct A_sym as [Hsq _].
  split; [apply column_length |]. split.
  - destruct (rsum_nonzero n (fun i => entry U i j * entry U i j))
      as (i & Hi & Hne).
    { rewrite (ec_orth_cols _ _ _ dec j j Hj Hj).
      unfold delta. rewrite Nat.eqb_refl. lra. }
    exists i. split; [exact Hi |].
    rewrite column_nth by exact Hi.
    intros Hz. apply Hne. rewrite Hz. lra.
  - intros i Hi. unfold mulvec. rewrite <- Hsq.
    rewrite column_nth by exact Hi.
    rewrite <- (ec_columns _ _ _ dec i j Hi Hj).
    apply rsum_ext. intros k Hk. now rewrite column_nth.
Qed.

(** The coordinate of [x] along column [j] of [U]. *)
Let coord (x : list R) (j : nat) : R :=
  rsum n (fun i => entry U i j * nth i x 0).

Lemma coord_eigen (mu : R) (x : list R) (j : nat) :
  eigenpair A mu x -> (j < n)%nat ->
  mu * coord x j = nth j w 0 * coord x j.
Proof.
  intros (_ & _ & Hx) Hj. destruct A_sym as [Hsq Hsym].
  unfold coord.
  rewrite <- !rsum_scal.
  transitivity (rsum n (fun i => rsum n (fun k =>
                  entry U i j * (entry A i k * nth k x 0)))).
  { apply rsum_ext. intros i Hi. rewrite rsum_scal.
    specialize (Hx i Hi). unfold mulvec in Hx. rewrite <- Hsq in Hx.
    rewrite Hx. lra. }
  rewrite rsum_swap.
  apply rsum_ext. intros k Hk.
  transitivity (rsum n (fun i => entry A k i * entry U i j) * nth k x 0).
  { rewrite Rmult_comm, <- rsum_scal.
    apply rsum_ext. intros i Hi. rewrite (Hsym i k Hi Hk). lra. }
  rewrite (ec_columns _ _ _ dec k j Hk Hj). lra.
Qed.

Lemma coord_expand (x : list R) (i : nat) :
  (i < n)%nat -> nth i x 0 = rsum n (fun j => entry U i j * coord x j).
Proof.
  intros Hi. unfold coord.
  transitivity (rsum n (fun j => rsum n (fun i' =>
                  entry U i j * entry U i' j * nth i' x 0))).
  2:{ apply rsum_ext. intros j Hj. rewrite <- rsum_scal.
      apply rsum_ext. intros i' Hi'. lra. }
  rewrite rsum_swap.
  rewrite <- (rsum_delta n i (fun i' => nth i' x 0)) at 1 by exact Hi.
  apply rsum_ext. intros i' Hi'.
  rewrite <- (ec_orth_rows _ _ _ dec i i' Hi Hi').
  rewrite Rmult_comm, <- rsum_scal.
  apply rsum_ext. intros j Hj. lra.
Qed.

Lemma eigenvalue_listed (mu : R) :
  eigenvalue A mu -> exists j, (j < n)%nat /\ mu = nth j w 0.
Proof.
  intros (x & Hx).
  destruct (all_zero_or_not n (coord x)) as [Hall | (j & Hj & Hc)].
  - exfalso. destruct Hx as (_ & (i & Hi & Hne) & _).
    apply Hne. rewrite (coord_expand x i Hi).
    apply rsum_zero. intros j Hj. rewrite (Hall j Hj). lra.
  - exists j. split; [exact Hj |].
    pose proof (coord_eigen mu x j Hx Hj) as He.
    apply (Rmult_eq_reg_r (coord x j)); assumption.
Qed.

Lemma first_is_min_eigenvalue : min_eigenvalue A (nth 0 w 0).
Proof.
  split.
  - exists (column U 0). apply column_eigenpair. exact A_nonempty.
  - intros mu Hmu. destruct (eigenvalue_listed mu Hmu) as (j & Hj & ->).
    apply (ec_ascending _ _ _ dec); [lia | exact Hj].
Qed.

End Spectral.

(** ** The second-derivative matrix: symmetry and what it depends on *)

Lemma gsdm_symmetric (xgrid : list R) :
  (2 <= length xgrid)%nat ->
  exists D2, generate_second_derivative_matrix xgrid = Ok D2 /\
    has_shape D2 (length xgrid) (length xgrid) /\
    forall i j, (i < length xgrid)%nat -> (j < length xgrid)%nat ->
      entry D2 i j = entry D2 j i.
Proof.
  intros HN.
  destruct (gsdm_entries xgrid HN) as (D2 & E & Hs & F).
  exists D2. split; [exact E |]. split; [exact Hs |].
  intros i j Hi Hj. rewrite (F i j Hi Hj), (F j i Hj Hi).
  rewrite (Nat.eqb_sym j i). lra.
Qed.

(** C5.  On a uniform grid of [N >= 5] points the matrix returned by
    [generate_second_derivative_matrix] is square and equal to its
    transpose, entry by entry. *)
Theorem second_derivative_symmetric (xgrid : list R) (dx : R) :
  (5 <= length xgrid)%nat -> uniform xgrid dx ->
  exists D2, generate_second_derivative_matrix xgrid = Ok D2 /\
    symmetric D2 /\
    same_shape D2 (np.transpose D2) /\
    forall i j, (i < nrows D2)%nat -> (j < ncols D2)%nat ->
      entry D2 i j = entry (np.transpose D2) i j.
Proof.
  intros HN _.
  destruct (gsdm_symmetric xgrid) as (D2 & E & [Hr Hc] & F); [lia |].
  exists D2. split; [exact E |].
  split; [split; [congruence | intros i j Hi Hj; apply F; congruence] |].
  split; [split; simpl; congruence |].
  intros i j Hi Hj. simpl. apply F; congruence.
Qed.

Lemma gsdm_same_inputs (xa xb : list R) :
  length xa = length xb -> (2 <= length xa)%nat ->
  first_spacing xa = first_spacing xb ->
  generate_second_derivative_matrix xa = generate_second_derivative_matrix xb.
Proof.
  intros Hlen HN Hdx.
  destruct xa as [| a0 [| a1 ra]]; simpl in HN; try lia.
  destruct xb as [| b0 [| b1 rb]]; simpl in Hlen; try lia.
  unfold first_spacing in Hdx. simpl in Hdx.
  unfold generate_second_derivative_matrix.
  cbn [getitem nth_error bind result_monad].
  rewrite Hdx. cbn [length]. rewrite Hlen. reflexivity.
Qed.

(** The uniform grid of [N] points that starts at [x0] with spacing [dx]. *)
Lemma arithmetic_grid_uniform (x0 dx : R) (N : nat) :
  uniform (map (fun i => x0 + INR i * dx) (seq 0 N)) dx.
Proof.
  intros i Hi. rewrite length_map, length_seq in Hi.
  rewrite !(nth_map_seq (fun i => x0 + INR i * dx)) by lia.
  rewrite S_INR. lra.
Qed.

(** C10.  [generate_second_derivative_matrix] reads its grid only through
    its length and through [xgrid[1] - xgrid[0]]: two grids of one length
    [N >= 2] with the same first difference give matrices of one shape with
    equal entries.  In particular any grid, uniform or not, gives the matrix
    of the uniform grid of that length whose spacing is its first interval. *)
Theorem second_derivative_reads_first_interval (xa xb : list R) :
  length xa = length xb -> (2 <= length xa)%nat ->
  nth 1 xa 0 - nth 0 xa 0 = nth 1 xb 0 - nth 0 xb 0 ->
  (exists Da Db,
     generate_second_derivative_matrix xa = Ok Da /\
     generate_second_derivative_matrix xb = Ok Db /\
     same_shape Da Db /\
     forall i j, (i < nrows Da)%nat -> (j < ncols Da)%nat ->
       entry Da i j = entry Db i j) /\
  (let xu := map (fun i => nth 0 xa 0 + INR i * (nth 1 xa 0 - nth 0 xa 0))
                 (seq 0 (length xa)) in
   uniform xu (nth 1 xa 0 - nth 0 xa 0) /\
   generate_second_derivative_matrix xa
   = generate_second_derivative_matrix xu).
Proof.
  intros Hlen HN Hdx. split.
  - destruct (gsdm_entries xa HN) as (Da & Ea & _ & _).
    exists Da, Da. split; [exact Ea |].
    split; [rewrite <- (gsdm_same_inputs xa xb Hlen HN Hdx); exact Ea |].
    split; [split; reflexivity |]. reflexivity.
  - split; [apply arithmetic_grid_uniform |].
    apply gsdm_same_inputs.
    + now rewrite length_map, length_seq.
    + exact HN.
    + unfold first_spacing.
      rewrite !(nth_map_seq
                  (fun i => nth 0 xa 0 + INR i * (nth 1 xa 0 - nth 0 xa 0)))
        by lia.
      simpl. lra.
Qed.

(** ** The potential matrix *)

Lemma nth_apow2 (xs : list R) (i : nat) :
  nth i (apow xs 2) 0 = nth i xs 0 * nth i xs 0.
Proof.
  unfold apow. revert i.
  induction xs as [| a xs IH]; intros [| i]; simpl; try ring. apply IH.
Qed.

(** C6.  For every grid of [N] points [generate_potential_matrix] returns an
    [N] by [N] matrix whose [i]-th diagonal entry is the square of the
    [i]-th coordinate and whose other entries are zero; so every entry is
    non-negative. *)
Theorem potential_diagonal_nonnegative (xgrid : list R) :
  let V := generate_potential_matrix xgrid in
  has_shape V (length xgrid) (length xgrid) /\
  forall i j, (i < length xgrid)%nat -> (j < length xgrid)%nat ->
    entry V i i = nth i xgrid 0 * nth i xgrid 0 /\
    (i <> j -> entry V i j = 0) /\
    0 <= entry V i j.
Proof.
  intros V. split.
  - subst V. unfold generate_potential_matrix. apply diag_shape_of.
    unfold apow. rewrite length_map. simpl. lia.
  - intros i j Hi Hj.
    assert (E : entry V i j
                = if (j =? i)%nat then nth i xgrid 0 * nth i xgrid 0 else 0).
    { subst V. unfold generate_potential_matrix, np.diag. simpl.
      rewrite Nat.add_0_r, nth_apow2. reflexivity. }
    assert (Ed : entry V i i = nth i xgrid 0 * nth i xgrid 0).
    { subst V. unfold generate_potential_matrix, np.diag. simpl.
      rewrite Nat.add_0_r, Nat.eqb_refl, nth_apow2. reflexivity. }
    split; [exact Ed |]. split.
    + intros Hne. rewrite E. destruct (Nat.eqb_spec j i); [congruence | reflexivity].
    + rewrite E. destruct (Nat.eqb_spec j i); [| lra].
      apply Rle_0_sqr.
Qed.

(** ** Grid construction *)

Lemma buildGrid_nonneg (x_max : R) (N : Z) :
  (0 <= N)%Z ->
  exists g, buildGrid x_max N = Ok g /\ length g = Z.to_nat N.
Proof.
  intros HN. unfold buildGrid, np.linspace.
  destruct (Z.ltb_spec N 0); [lia |].
  eexists. split; [reflexivity |].
  destruct (Z.to_nat N) as [| [| m]]; [reflexivity | reflexivity |].
  rewrite length_app, length_map, length_seq. simpl. lia.
Qed.

Lemma buildGrid_negative (x_max : R) (N : Z) :
  (N < 0)%Z -> buildGrid x_max N = Raise ValueError.
Proof.
  intros HN. unfold buildGrid, np.linspace.
  destruct (Z.ltb_spec N 0); [reflexivity | lia].
Qed.

Lemma gsdm_short_grid (xgrid : list R) :
  (length xgrid < 2)%nat ->
  generate_second_derivative_matrix xgrid = Raise IndexError.
Proof.
  intros HN. destruct xgrid as [| x0 [| x1 rest]]; simpl in HN; try lia;
    reflexivity.
Qed.

Lemma linspace_two_or_more (start stop : R) (m : nat) :
  np.linspace start stop (Z.of_nat (S (S m)))
  = Ok (map (fun i => start + INR i * ((stop - start) / INR (S m)))
            (seq 0 (S m)) ++ [stop]).
Proof.
  unfold np.linspace. destruct (Z.ltb_spec (Z.of_nat (S (S m))) 0); [lia |].
  rewrite Nat2Z.id. reflexivity.
Qed.

Lemma linspace_uniform (start stop : R) (m : nat) :
  let step := (stop - start) / INR (S m) in
  uniform (map (fun i => start + INR i * step) (seq 0 (S m)) ++ [stop]) step.
Proof.
  intros step i Hi.
  rewrite length_app, length_map, length_seq in Hi. simpl in Hi.
  assert (Hm : INR (S m) <> 0) by (apply not_0_INR; lia).
  rewrite (app_nth1 _ _ _ (n := i)) by (rewrite length_map, length_seq; lia).
  rewrite (nth_map_seq (fun i => start + INR i * step)) by lia.
  destruct (Nat.eq_dec i m) as [-> | Hne].
  - rewrite app_nth2 by (rewrite length_map, length_seq; lia).
    rewrite length_map, length_seq, Nat.sub_diag. simpl nth.
    subst step. rewrite (S_INR m) in *. field. exact Hm.
  - rewrite app_nth1 by (rewrite length_map, length_seq; lia).
    rewrite (nth_map_seq (fun i => start + INR i * step)) by lia.
    rewrite (S_INR i). lra.
Qed.

(** The grid the set-up cell builds is uniform, with the spacing of the
    data model: [2 * x_max / (N - 1)]. *)
Lemma buildGrid_uniform (x_max : R) (N : Z) (g : list R) :
  (2 <= N)%Z -> buildGrid x_max N = Ok g ->
  length g = Z.to_nat N /\ uniform g (2 * x_max / (IZR N - 1)).
Proof.
  intros HN Eg.
  destruct (buildGrid_nonneg x_max N) as (g' & Eg' & Hlen); [lia |].
  assert (g' = g) by congruence. subst g'. split; [exact Hlen |].
  destruct (Z.to_nat N) as [| [| m]] eqn:En; [lia | lia |].
  assert (HNm : N = Z.of_nat (S (S m))) by lia.
  unfold buildGrid in Eg. rewrite HNm, linspace_two_or_more in Eg.
  injection Eg as <-.
  assert (Hm : INR (S m) <> 0) by (apply not_0_INR; lia).
  replace (2 * x_max / (IZR N - 1)) with ((x_max - - x_max) / INR (S m)).
  - apply linspace_uniform.
  - rewrite HNm, <- INR_IZR_INZ, (S_INR (S m)). field.
    repeat split; intros Hz; apply Hm; lra.
Qed.

(** X12.  On the notebook's own grid, for [N >= 5] points and [x_max] not
    zero, the second-derivative matrix is the stencil for
    [dx = 2 x_max / (N-1)]. *)
Corollary buildGrid_stencil (x_max : R) (N : Z) :
  (5 <= N)%Z -> x_max <> 0 ->
  exists g D2,
    buildGrid x_max N = Ok g /\
    generate_second_derivative_matrix g = Ok D2 /\
    has_shape D2 (Z.to_nat N) (Z.to_nat N) /\
    forall i j, (i < Z.to_nat N)%nat -> (j < Z.to_nat N)%nat ->
      entry D2 i j = five_point_stencil (2 * x_max / (IZR N - 1)) i j.
Proof.
  intros HN Hx.
  destruct (buildGrid_nonneg x_max N) as (g & Eg & Hlen); [lia |].
  destruct (buildGrid_uniform x_max N g) as [_ Hu]; [lia | exact Eg |].
  assert (Hdx : 2 * x_max / (IZR N - 1) <> 0).
  { assert (HN1 : 4 <= IZR N - 1).
    { apply IZR_le in HN. lra. }
    intros Hz. apply Hx.
    assert (Hq : 2 * x_max = 2 * x_max / (IZR N - 1) * (IZR N - 1))
      by (field; lra).
    rewrite Hz in Hq. lra. }
  destruct (gsdm_stencil g _ ltac:(lia) Hu Hdx) as (D2 & E & Hs & G).
  rewrite Hlen in Hs, G.
  exists g, D2. repeat split; try assumption; apply Hs.
Qed.

(** C3, as the specification has it, at [x_max = 10] and [N = 4]: the claim
    asks for a failure there, and the grid is built. *)
Lemma buildGrid_four_points_succeeds :
  ~ ((exists e, buildGrid 10 4 = Raise e) <-> ((4 < 5)%Z \/ 10 <= 0)).
Proof.
  intros [_ H]. destruct H as [e He]; [left; lia |].
  destruct (buildGrid_nonneg 10 4) as (g & Eg & _); [lia |].
  congruence.
Qed.

(** C3, amended.  The grid set-up validates nothing: it fails exactly when
    the number of points is negative, with numpy's [ValueError], whatever
    [x_max] is.  With [N = 4] and with [N = 5] it returns a grid of that many
    points on which the stencil construction does not raise; the stencil
    construction raises exactly on grids of fewer than two points. *)
Theorem buildGrid_validates_nothing :
  (forall x_max N, (exists e, buildGrid x_max N = Raise e) <-> (N < 0)%Z) /\
  (forall x_max N, (N < 0)%Z -> buildGrid x_max N = Raise ValueError) /\
  (forall x_max, exists g D2,
      buildGrid x_max 4 = Ok g /\ length g = 4%nat /\
      generate_second_derivative_matrix g = Ok D2) /\
  (forall x_max, exists g D2,
      buildGrid x_max 5 = Ok g /\ length g = 5%nat /\
      generate_second_derivative_matrix g = Ok D2 /\ has_shape D2 5 5) /\
  (forall xgrid,
      (exists e, generate_second_derivative_matrix xgrid = Raise e)
      <-> (length xgrid < 2)%nat).
Proof.
  split; [| split; [| split; [| split]]].
  - intros x_max N. split.
    + intros [e He]. destruct (Z.lt_ge_cases N 0) as [Hlt | Hge]; [exact Hlt |].
      destruct (buildGrid_nonneg x_max N Hge) as (g & Eg & _). congruence.
    + intros HN. exists ValueError. now apply buildGrid_negative.
  - apply buildGrid_negative.
  - intros x_max.
    destruct (buildGrid_nonneg x_max 4) as (g & Eg & Hl); [lia |].
    destruct (gsdm_entries g) as (D2 & E & _ & _); [rewrite Hl; simpl; lia |].
    exists g, D2. split; [exact Eg |]. split; [exact Hl | exact E].
  - intros x_max.
    destruct (buildGrid_nonneg x_max 5) as (g & Eg & Hl); [lia |].
    destruct (gsdm_entries g) as (D2 & E & Hs & _); [rewrite Hl; simpl; lia |].
    exists g, D2. split; [exact Eg |]. split; [exact Hl |].
    split; [exact E |]. rewrite Hl in Hs. exact Hs.
  - intros xgrid. split.
    + intros [e He]. destruct (Nat.lt_ge_cases (length xgrid) 2) as [Hlt | Hge];
        [exact Hlt |].
      destruct (gsdm_entries xgrid Hge) as (D2 & E & _ & _). congruence.
    + intros HN. exists IndexError. now apply gsdm_short_grid.
Qed.

(** ** The solver and the store *)

Lemma HO_solver_trace_extends (syevd : matrix -> result (list R * matrix))
    (alpha : R) (D V : matrix) (s : store) :
  exists ext, snd (HO_solver_trace syevd alpha D V s) = s ++ ext.
Proof.
  unfold HO_solver_trace.
  destruct (np.add (np.neg D) (np.scale alpha V)) as [H | e];
    [| eexists; simpl; rewrite <- app_assoc; reflexivity].
  destruct (np.linalg.eigh syevd H) as [[w U] | e];
    [| eexists; simpl; rewrite <- !app_assoc; reflexivity].
  destruct (getitem w 0) as [e0 | e];
    [| eexists; simpl; rewrite <- !app_assoc; reflexivity].
  destruct (getrow (np.transpose U) 0) as [v0 | e];
    eexists; simpl; rewrite <- !app_assoc; reflexivity.
Qed.

(** The outcome of the trace does not mention the store. *)
Lemma HO_solver_trace_outcome (syevd : matrix -> result (list R * matrix))
    (alpha : R) (D V : matrix) (s s' : store) :
  fst (HO_solver_trace syevd alpha D V s)
  = fst (HO_solver_trace syevd alpha D V s').
Proof.
  unfold HO_solver_trace.
  destruct (np.add (np.neg D) (np.scale alpha V)) as [H | e]; [| reflexivity].
  destruct (np.linalg.eigh syevd H) as [[w U] | e]; [| reflexivity].
  destruct (getitem w 0) as [e0 | e]; [| reflexivity].
  destruct (getrow (np.transpose U) 0) as [v0 | e]; reflexivity.
Qed.

Lemma HO_solver_only_allocates
    (syevd : matrix -> result (list R * matrix))
    (alpha : R) (d v : loc) (D V : matrix) (s : store) :
  nth_error s d = Some D -> nth_error s v = Some V ->
  exists ext, final (HO_solver syevd alpha d v) s = s ++ ext.
Proof.
  intros Hd Hv. unfold final. rewrite (HO_solver_run _ _ _ _ _ _ _ Hd Hv).
  apply HO_solver_trace_extends.
Qed.

(** C8.  A call of [HO_solver] on stored arrays [D2Mat] and [vpot] leaves
    both as they were, and leaves every other array of the store as it was:
    the store after the call is the store before it followed by the arrays
    the call allocated.  This holds whether the call returns or raises. *)
Theorem HO_solver_no_side_effects
    (syevd : matrix -> result (list R * matrix))
    (alpha : R) (D2Mat vpot : loc) (D V : matrix) (s : store) :
  nth_error s D2Mat = Some D -> nth_error s vpot = Some V ->
  let s' := final (HO_solver syevd alpha D2Mat vpot) s in
  nth_error s' D2Mat = Some D /\
  nth_error s' vpot = Some V /\
  (forall l A, nth_error s l = Some A -> nth_error s' l = Some A) /\
  exists fresh, s' = s ++ fresh.
Proof.
  intros Hd Hv s'.
  destruct (HO_solver_only_allocates syevd alpha D2Mat vpot D V s Hd Hv)
    as [ext Hs'].
  subst s'. rewrite Hs'.
  split; [now apply nth_error_extend |].
  split; [now apply nth_error_extend |].
  split; [intros l A Hl; now apply nth_error_extend |].
  exists ext. reflexivity.
Qed.

(** C9.  Two successive calls of [HO_solver] with the same [alpha] and the
    same stored arrays have the same outcome: the second call, run from the
    store the first one left, returns the same eigenvalue and the same
    eigenvector, or raises the same exception.  More generally the outcome
    is the same from any store and any locations that hold the same two
    arrays. *)
Theorem HO_solver_deterministic
    (syevd : matrix -> result (list R * matrix))
    (alpha : R) (D2Mat vpot : loc) (D V : matrix) (s : store) :
  nth_error s D2Mat = Some D -> nth_error s vpot = Some V ->
  outcome (HO_solver syevd alpha D2Mat vpot)
          (final (HO_solver syevd alpha D2Mat vpot) s)
  = outcome (HO_solver syevd alpha D2Mat vpot) s /\
  forall (s2 : store) (d2 v2 : loc),
    nth_error s2 d2 = Some D -> nth_error s2 v2 = Some V ->
    outcome (HO_solver syevd alpha d2 v2) s2
    = outcome (HO_solver syevd alpha D2Mat vpot) s.
Proof.
  intros Hd Hv.
  assert (G : forall (s2 : store) (d2 v2 : loc),
             nth_error s2 d2 = Some D -> nth_error s2 v2 = Some V ->
             outcome (HO_solver syevd alpha d2 v2) s2
             = outcome (HO_solver syevd alpha D2Mat vpot) s).
  { intros s2 d2 v2 Hd2 Hv2. unfold outcome.
    rewrite (HO_solver_run _ _ _ _ _ _ _ Hd Hv).
    rewrite (HO_solver_run _ _ _ _ _ _ _ Hd2 Hv2).
    apply HO_solver_trace_outcome. }
  split; [| exact G].
  destruct (HO_solver_only_allocates syevd alpha D2Mat vpot D V s Hd Hv)
    as [ext Hs'].
  rewrite Hs'. apply G; now apply nth_error_extend.
Qed.

(** ** The Hamiltonian the solver builds *)

Lemma agree_sym (A B : matrix) : agree A B -> agree B A.
Proof.
  intros [[Hr Hc] F]. split; [split; congruence |].
  intros i j Hi Hj. symmetry. apply F; congruence.
Qed.

Lemma eigenpair_agree (A B : matrix) (lam : R) (x : list R) :
  agree A B -> eigenpair A lam x -> eigenpair B lam x.
Proof.
  intros [[Hr Hc] F] (Hl & (i & Hi & Hne) & Hx).
  split; [congruence |]. split.
  - exists i. split; [congruence | exact Hne].
  - intros k Hk. rewrite <- Hr in Hk. rewrite <- (Hx k Hk).
    unfold mulvec. rewrite <- Hc.
    apply rsum_ext. intros j Hj. now rewrite F.
Qed.

Lemma min_eigenvalue_agree (A B : matrix) (lam : R) :
  agree A B -> min_eigenvalue A lam -> min_eigenvalue B lam.
Proof.
  intros Hab [[x Hx] Hmin]. split.
  - exists x. now apply (eigenpair_agree A B).
  - intros mu [y Hy]. apply Hmin. exists y.
    apply (eigenpair_agree B A); [now apply agree_sym | exact Hy].
Qed.

Lemma hamiltonian_from_add (alpha : R) (D V : matrix) :
  same_shape D V ->
  exists Hm, np.add (np.neg D) (np.scale alpha V) = Ok Hm /\
    agree Hm (hamiltonian alpha D V).
Proof.
  intros [Hr Hc].
  destruct (add_same_shape (np.neg D) (np.scale alpha V))
    as (Hm & E & [Sr Sc] & F); [split; simpl; assumption |].
  simpl in Sr, Sc, F.
  exists Hm. split; [exact E |].
  split; [split; simpl; assumption |].
  intros i j Hi Hj. simpl. apply F; congruence.
Qed.

Lemma hamiltonian_symmetric (alpha : R) (D V : matrix) :
  same_shape D V -> symmetric D -> symmetric V ->
  symmetric (hamiltonian alpha D V).
Proof.
  intros [Hr Hc] [Dsq Dsym] [Vsq Vsym]. split; [exact Dsq |].
  simpl. intros i j Hi Hj.
  rewrite (Dsym i j Hi Hj), (Vsym i j) by congruence. reflexivity.
Qed.

Lemma symmetric_agree (A B : matrix) :
  agree A B -> symmetric A -> symmetric B.
Proof.
  intros [[Hr Hc] F] [Asq Asym]. split; [congruence |].
  intros i j Hi Hj.
  rewrite <- !F by congruence. apply Asym; congruence.
Qed.

(** When LAPACK returns [(w, U)] of the right sizes for a non-empty square
    [Hm], the solver returns [w[0]] and the first column of [U]. *)
Lemma HO_solver_returns_first (syevd : matrix -> result (list R * matrix))
    (alpha : R) (d v : loc) (D V Hm U : matrix) (w : list R) (s : store) :
  nth_error s d = Some D -> nth_error s v = Some V ->
  np.add (np.neg D) (np.scale alpha V) = Ok Hm ->
  nrows Hm = ncols Hm -> (0 < nrows Hm)%nat ->
  syevd Hm = Ok (w, U) ->
  length w = nrows Hm -> has_shape U (nrows Hm) (nrows Hm) ->
  outcome (HO_solver syevd alpha d v) s = Ok (nth 0 w 0, column U 0).
Proof.
  intros Hd Hv E Hsq Hpos Esy Hlen [Ur Uc].
  unfold outcome. rewrite (HO_solver_run _ _ _ _ _ _ _ Hd Hv).
  unfold HO_solver_trace. rewrite E.
  unfold np.linalg.eigh. rewrite Hsq, Nat.eqb_refl, Esy.
  destruct w as [| w0 w']; [simpl in Hlen; lia |].
  cbn [getitem nth_error nth].
  unfold getrow. cbn [np.transpose nrows ncols entry].
  destruct (Nat.ltb_spec 0 (ncols U)) as [_ | Hbad]; [| lia].
  reflexivity.
Qed.

(** X13.  On empty operands there is no eigenvalue to return: when [eigh]
    gives an empty [evals] for the empty sum, [evals[0]] raises
    [IndexError]. *)
Lemma HO_solver_empty_raises (syevd : matrix -> result (list R * matrix))
    (alpha : R) (d v : loc) (D V U : matrix) (s : store) :
  nth_error s d = Some D -> nth_error s v = Some V ->
  has_shape D 0 0 -> has_shape V 0 0 ->
  (forall Hm, np.add (np.neg D) (np.scale alpha V) = Ok Hm ->
     syevd Hm = Ok ([], U)) ->
  outcome (HO_solver syevd alpha d v) s = Raise IndexError.
Proof.
  intros Hd Hv [Dr Dc] [Vr Vc] Hsy.
  destruct (hamiltonian_from_add alpha D V) as (Hm & E & [[Hr Hc] _]);
    [split; congruence |].
  simpl in Hr, Hc.
  unfold outcome. rewrite (HO_solver_run _ _ _ _ _ _ _ Hd Hv).
  unfold HO_solver_trace. rewrite E. unfold np.linalg.eigh.
  replace (nrows Hm) with (ncols Hm) by congruence.
  rewrite Nat.eqb_refl, (Hsy Hm E). reflexivity.
Qed.

(** C1.  For [alpha > 0] and stored symmetric matrices [D2Mat] and [vpot] of
    one non-zero dimension, whenever the decomposition behind [eigh]
    converges on the matrix the solver hands it and meets the contract numpy
    documents for it, [HO_solver] returns a pair whose first component is
    the least eigenvalue of [H = -D2Mat + alpha * vpot] and whose second
    component is an eigenvector of [H] for that eigenvalue.  The dimension is
    not zero because a matrix without rows has no eigenvalue. *)
Theorem HO_solver_ground_state
    (syevd : matrix -> result (list R * matrix))
    (alpha : R) (D2Mat vpot : loc) (D V : matrix) (s : store) :
  0 < alpha ->
  nth_error s D2Mat = Some D -> nth_error s vpot = Some V ->
  same_shape D V -> (0 < nrows D)%nat ->
  symmetric D -> symmetric V ->
  (forall Hm, np.add (np.neg D) (np.scale alpha V) = Ok Hm ->
     exists w U, syevd Hm = Ok (w, U) /\ eigh_contract Hm w U) ->
  exists lam x,
    outcome (HO_solver syevd alpha D2Mat vpot) s = Ok (lam, x) /\
    min_eigenvalue (hamiltonian alpha D V) lam /\
    eigenpair (hamiltonian alpha D V) lam x.
Proof.
  intros _ Hd Hv Hshape Hpos Dsym Vsym Hlapack.
  destruct (hamiltonian_from_add alpha D V Hshape) as (Hm & E & Hag).
  destruct (Hlapack Hm E) as (w & U & Esy & Hc).
  assert (Hsym : symmetric Hm).
  { apply (symmetric_agree (hamiltonian alpha D V) Hm);
      [now apply agree_sym | now apply hamiltonian_symmetric]. }
  assert (Hn : nrows Hm = nrows D) by (destruct Hag as [[Hr _] _]; exact Hr).
  assert (Hpos' : (0 < nrows Hm)%nat) by lia.
  exists (nth 0 w 0), (column U 0).
  split; [| split].
  - apply (HO_solver_returns_first syevd alpha D2Mat vpot D V Hm U w s);
      try assumption.
    + apply Hsym.
    + apply (ec_length _ _ _ Hc).
    + apply (ec_shape _ _ _ Hc).
  - apply (min_eigenvalue_agree Hm); [exact Hag |].
    now apply (first_is_min_eigenvalue Hm w U).
  - apply (eigenpair_agree Hm); [exact Hag |].
    now apply (column_eigenpair Hm w U).
Qed.

(** An exactly orthogonal [U] has columns of norm exactly 1. *)
Lemma contract_columns_normalized (A : matrix) (w : list R) (U : matrix) :
  eigh_contract A w U -> columns_normalized U 0.
Proof.
  intros Hc j Hj. destruct (ec_shape _ _ _ Hc) as [Ur Uc].
  rewrite Uc in Hj.
  unfold norm2. rewrite (column_length A w U Hc).
  rewrite (rsum_ext _ _ (fun i => entry U i j * entry U i j)).
  - rewrite (ec_orth_cols _ _ _ Hc j j Hj Hj).
    unfold delta. rewrite Nat.eqb_refl, sqrt_1.
    rewrite Rminus_diag, Rabs_R0. lra.
  - intros i Hi. now rewrite (column_nth A w U Hc).
Qed.

(** C7.  For a valid input ([alpha > 0], stored symmetric [D2Mat] and
    diagonal [vpot] of one non-zero dimension), whenever the decomposition
    behind [eigh] converges and returns eigenvectors normalised to within a
    tolerance of at most [1e-9], the eigenvector returned by [HO_solver] has
    Euclidean norm within [1e-9] of 1: the solver hands the first column
    through as it is. *)
Theorem HO_solver_unit_norm
    (syevd : matrix -> result (list R * matrix))
    (alpha tol : R) (D2Mat vpot : loc) (D V : matrix) (s : store) :
  0 < alpha ->
  nth_error s D2Mat = Some D -> nth_error s vpot = Some V ->
  same_shape D V -> (0 < nrows D)%nat ->
  symmetric D -> symmetric V -> diagonal V ->
  tol <= 1 / 1000000000 ->
  (forall Hm, np.add (np.neg D) (np.scale alpha V) = Ok Hm ->
     exists w U, syevd Hm = Ok (w, U) /\
       length w = nrows Hm /\ has_shape U (nrows Hm) (nrows Hm) /\
       columns_normalized U tol) ->
  exists lam x,
    outcome (HO_solver syevd alpha D2Mat vpot) s = Ok (lam, x) /\
    Rabs (norm2 x - 1) <= 1 / 1000000000.
Proof.
  intros _ Hd Hv Hshape Hpos Dsym Vsym _ Htol Hlapack.
  destruct (hamiltonian_from_add alpha D V Hshape) as (Hm & E & Hag).
  destruct (Hlapack Hm E) as (w & U & Esy & Hlen & HU & Hnorm).
  assert (Hsym : symmetric Hm).
  { apply (symmetric_agree (hamiltonian alpha D V) Hm);
      [now apply agree_sym | now apply hamiltonian_symmetric]. }
  assert (Hn : nrows Hm = nrows D) by (destruct Hag as [[Hr _] _]; exact Hr).
  exists (nth 0 w 0), (column U 0). split.
  - apply (HO_solver_returns_first syevd alpha D2Mat vpot D V Hm U w s);
      try assumption; [apply Hsym | lia].
  - apply Rle_trans with tol; [| exact Htol].
    apply Hnorm. destruct HU as [_ Uc]. lia.
Qed.

(** ** Failures of the solver *)

Lemma add_not_broadcastable (A B : matrix) :
  ~ broadcastable A B -> np.add A B = Raise ValueError.
Proof.
  unfold broadcastable, np.add. intros Hn.
  destruct (np.bdim (nrows A) (nrows B)) as [r |]; [| reflexivity].
  destruct (np.bdim (ncols A) (ncols B)) as [c |]; [| reflexivity].
  exfalso. apply Hn. split; discriminate.
Qed.

Lemma add_broadcastable (A B : matrix) :
  broadcastable A B -> exists C, np.add A B = Ok C.
Proof.
  unfold broadcastable, np.add. intros [Hr Hc].
  destruct (np.bdim (nrows A) (nrows B)) as [r |]; [| congruence].
  destruct (np.bdim (ncols A) (ncols B)) as [c |]; [| congruence].
  eexists. reflexivity.
Qed.

Lemma identity2_decomposes_itself :
  forall Hm, np.add (np.neg D_swap) (np.scale 1 V_one) = Ok Hm ->
    syevd_identity2 Hm = Ok ([1; 1], identity2) /\
    eigh_contract Hm [1; 1] identity2.
Proof.
  intros Hm E. split; [reflexivity |].
  unfold np.add in E. simpl in E. injection E as <-.
  constructor; simpl.
  - reflexivity.
  - split; reflexivity.
  - intros i j Hij Hj. destruct i as [| [| i]], j as [| [| j]]; try lia; simpl; lra.
  - intros i j Hi Hj. two_indices i j Hi Hj; simpl; lra.
  - intros i j Hi Hj. two_indices i j Hi Hj; unfold delta; simpl; lra.
  - intros i j Hi Hj. two_indices i j Hi Hj; unfold delta; simpl; lra.
Qed.

(** C4, as the specification has it, on a 2 by 2 [D2] and a 1 by 1 [V]: the
    shapes differ, numpy broadcasts [V], the sum is the identity matrix,
    whose decomposition is itself, and the call returns. *)
Lemma HO_solver_accepts_broadcast_shapes :
  ~ same_shape D_swap V_one /\
  outcome (HO_solver syevd_identity2 1 0%nat 1%nat) [D_swap; V_one]
  = Ok (1, [1; 0]) /\
  ~ (exists e,
       outcome (HO_solver syevd_identity2 1 0%nat 1%nat) [D_swap; V_one]
       = Raise e).
Proof.
  assert (E : outcome (HO_solver syevd_identity2 1 0%nat 1%nat)
                [D_swap; V_one] = Ok (1, [1; 0])) by reflexivity.
  split; [intros [Hr _]; simpl in Hr; lia |].
  split; [exact E |].
  intros [e He]. rewrite E in He. discriminate.
Qed.

(** C4, amended.  [HO_solver] checks no shape itself.  When the shapes of
    [D2Mat] and [vpot] cannot be broadcast together the sum raises numpy's
    [ValueError]; when they can, the sum is formed, also if they differ;
    when the sum is not square [eigh] raises [LinAlgError]; when the
    decomposition raises, its exception reaches the caller.  A call that
    raises returns no result. *)
Theorem HO_solver_failures
    (syevd : matrix -> result (list R * matrix))
    (alpha : R) (D2Mat vpot : loc) (D V : matrix) (s : store) :
  nth_error s D2Mat = Some D -> nth_error s vpot = Some V ->
  let r := outcome (HO_solver syevd alpha D2Mat vpot) s in
  (~ broadcastable D V -> r = Raise ValueError) /\
  (broadcastable D V ->
     exists Hm, np.add (np.neg D) (np.scale alpha V) = Ok Hm) /\
  (forall Hm, np.add (np.neg D) (np.scale alpha V) = Ok Hm ->
     nrows Hm <> ncols Hm -> r = Raise LinAlgError) /\
  (forall Hm e, np.add (np.neg D) (np.scale alpha V) = Ok Hm ->
     nrows Hm = ncols Hm -> syevd Hm = Raise e -> r = Raise e) /\
  (forall e, r = Raise e -> forall p, r <> Ok p).
Proof.
  intros Hd Hv r.
  assert (Hr : r = fst (HO_solver_trace syevd alpha D V s)).
  { subst r. unfold outcome. now rewrite (HO_solver_run _ _ _ _ _ _ _ Hd Hv). }
  unfold HO_solver_trace in Hr.
  split; [| split; [| split; [| split]]].
  - intros Hn.
    rewrite (add_not_broadcastable (np.neg D) (np.scale alpha V)) in Hr
      by exact Hn.
    exact Hr.
  - intros Hb. now apply (add_broadcastable (np.neg D) (np.scale alpha V)).
  - intros Hm E Hns. rewrite E in Hr. unfold np.linalg.eigh in Hr.
    destruct (Nat.eqb_spec (nrows Hm) (ncols Hm)); [contradiction | exact Hr].
  - intros Hm e E Hsq Esy. rewrite E in Hr. unfold np.linalg.eigh in Hr.
    rewrite Hsq, Nat.eqb_refl, Esy in Hr. exact Hr.
  - intros e He p Hp. rewrite He in Hp. discriminate.
Qed.

(** ** The theorems at concrete inputs

    Each theorem above is applied once to a concrete input that meets its
    hypotheses: the five-point grid, the operands [D_ex] and [V_ex] in the
    store [[D_ex; V_ex]], and the broadcast pair [D_swap], [V_one]. *)

Lemma grid5_uniform : uniform grid5 1.
Proof.
  intros i Hi. simpl in Hi.
  destruct i as [| [| [| [| i]]]]; try lia; simpl; lra.
Qed.

Lemma D_ex_symmetric : symmetric D_ex.
Proof.
  split; [reflexivity |]. intros i j Hi Hj.
  two_indices i j Hi Hj; reflexivity.
Qed.

Lemma V_ex_symmetric : symmetric V_ex.
Proof.
  split; [reflexivity |]. intros i j Hi Hj.
  two_indices i j Hi Hj; reflexivity.
Qed.

Lemma V_ex_diagonal : diagonal V_ex.
Proof.
  intros i j Hi Hj Hne. two_indices i j Hi Hj; try reflexivity; congruence.
Qed.

Lemma syevd_ex_contract :
  forall Hm, np.add (np.neg D_ex) (np.scale 1 V_ex) = Ok Hm ->
    exists w U, syevd_ex Hm = Ok (w, U) /\ eigh_contract Hm w U.
Proof.
  intros Hm E. exists [3; 6], identity2. split; [reflexivity |].
  unfold np.add in E. simpl in E. injection E as <-.
  constructor; simpl.
  - reflexivity.
  - split; reflexivity.
  - intros i j Hij Hj. destruct i as [| [| i]], j as [| [| j]]; try lia; simpl; lra.
  - intros i j Hi Hj. two_indices i j Hi Hj; simpl; lra.
  - intros i j Hi Hj. two_indices i j Hi Hj; unfold delta; simpl; lra.
  - intros i j Hi Hj. two_indices i j Hi Hj; unfold delta; simpl; lra.
Qed.

Lemma syevd_ex_normalized :
  forall Hm, np.add (np.neg D_ex) (np.scale 1 V_ex) = Ok Hm ->
    exists w U, syevd_ex Hm = Ok (w, U) /\
      length w = nrows Hm /\ has_shape U (nrows Hm) (nrows Hm) /\
      columns_normalized U 0.
Proof.
  intros Hm E. destruct (syevd_ex_contract Hm E) as (w & U & Esy & Hc).
  exists w, U. split; [exact Esy |].
  split; [apply (ec_length _ _ _ Hc) |].
  split; [apply (ec_shape _ _ _ Hc) |].
  apply (contract_columns_normalized Hm w U Hc).
Qed.

Lemma second_derivative_stencil_witness :
  exists D2, generate_second_derivative_matrix grid5 = Ok D2 /\
    has_shape D2 5 5 /\
    (forall i j, (i < 5)%nat -> (j < 5)%nat ->
       entry D2 i j = five_point_stencil 1 i j) /\
    (forall i j, (i < 5)%nat -> (j < 5)%nat -> (2 < offset i j)%nat ->
       entry D2 i j = 0) /\
    entry D2 0 4 = 0 /\ entry D2 4 0 = 0 /\
    entry D2 0 1 = 4 / (3 * 1 ^ 2) /\ entry D2 0 2 = - 1 / (12 * 1 ^ 2).
Proof.
  apply (second_derivative_stencil grid5 1);
    [simpl; lia | exact grid5_uniform | lra].
Defined.

Lemma second_derivative_symmetric_witness :
  exists D2, generate_second_derivative_matrix grid5 = Ok D2 /\
    symmetric D2 /\
    same_shape D2 (np.transpose D2) /\
    forall i j, (i < nrows D2)%nat -> (j < ncols D2)%nat ->
      entry D2 i j = entry (np.transpose D2) i j.
Proof.
  apply (second_derivative_symmetric grid5 1);
    [simpl; lia | exact grid5_uniform].
Defined.

Lemma second_derivative_reads_first_interval_witness :
  exists Da Db,
    generate_second_derivative_matrix [0; 1; 3] = Ok Da /\
    generate_second_derivative_matrix [5; 6; 10] = Ok Db /\
    same_shape Da Db /\
    forall i j, (i < nrows Da)%nat -> (j < ncols Da)%nat ->
      entry Da i j = entry Db i j.
Proof.
  apply (second_derivative_reads_first_interval [0; 1; 3] [5; 6; 10]);
    [reflexivity | simpl; lia | simpl; lra].
Defined.

Lemma potential_diagonal_nonnegative_witness :
  entry (generate_potential_matrix [-1; 2]) 0 0 = -1 * -1 /\
  (0%nat <> 1%nat -> entry (generate_potential_matrix [-1; 2]) 0 1 = 0) /\
  0 <= entry (generate_potential_matrix [-1; 2]) 0 1.
Proof.
  apply (proj2 (potential_diagonal_nonnegative [-1; 2]) 0%nat 1%nat);
    simpl; lia.
Defined.

Lemma buildGrid_validates_nothing_witness :
  buildGrid 10 (-1) = Raise ValueError.
Proof.
  apply (proj1 (proj2 buildGrid_validates_nothing) 10 (-1)%Z). lia.
Defined.

Lemma HO_solver_ground_state_witness :
  exists lam x,
    outcome (HO_solver syevd_ex 1 0%nat 1%nat) [D_ex; V_ex] = Ok (lam, x) /\
    min_eigenvalue (hamiltonian 1 D_ex V_ex) lam /\
    eigenpair (hamiltonian 1 D_ex V_ex) lam x.
Proof.
  apply (HO_solver_ground_state syevd_ex 1 0%nat 1%nat D_ex V_ex);
    [lra | reflexivity | reflexivity | split; reflexivity | simpl; lia
    | exact D_ex_symmetric | exact V_ex_symmetric | exact syevd_ex_contract].
Defined.

Lemma HO_solver_unit_norm_witness :
  exists lam x,
    outcome (HO_solver syevd_ex 1 0%nat 1%nat) [D_ex; V_ex] = Ok (lam, x) /\
    Rabs (norm2 x - 1) <= 1 / 1000000000.
Proof.
  apply (HO_solver_unit_norm syevd_ex 1 0 0%nat 1%nat D_ex V_ex);
    [lra | reflexivity | reflexivity | split; reflexivity | simpl; lia
    | exact D_ex_symmetric | exact V_ex_symmetric | exact V_ex_diagonal
    | lra | exact syevd_ex_normalized].
Defined.

Lemma HO_solver_no_side_effects_witness :
  let s' := final (HO_solver syevd_ex 1 0%nat 1%nat) [D_ex; V_ex] in
  nth_error s' 0 = Some D_ex /\
  nth_error s' 1 = Some V_ex /\
  (forall l A, nth_error [D_ex; V_ex] l = Some A -> nth_error s' l = Some A) /\
  exists fresh, s' = [D_ex; V_ex] ++ fresh.
Proof.
  apply (HO_solver_no_side_effects syevd_ex 1 0%nat 1%nat D_ex V_ex);
    reflexivity.
Defined.

Lemma HO_solver_deterministic_witness :
  outcome (HO_solver syevd_ex 1 0%nat 1%nat)
          (final (HO_solver syevd_ex 1 0%nat 1%nat) [D_ex; V_ex])
  = outcome (HO_solver syevd_ex 1 0%nat 1%nat) [D_ex; V_ex] /\
  forall (s2 : store) (d2 v2 : loc),
    nth_error s2 d2 = Some D_ex -> nth_error s2 v2 = Some V_ex ->
    outcome (HO_solver syevd_ex 1 d2 v2) s2
    = outcome (HO_solver syevd_ex 1 0%nat 1%nat) [D_ex; V_ex].
Proof.
  apply (HO_solver_deterministic syevd_ex 1 0%nat 1%nat D_ex V_ex);
    reflexivity.
Defined.

Lemma HO_solver_failures_witness :
  let r := outcome (HO_solver syevd_identity2 1 0%nat 1%nat)
             [D_swap; V_one] in
  (~ broadcastable D_swap V_one -> r = Raise ValueError) /\
  (broadcastable D_swap V_one ->
     exists Hm, np.add (np.neg D_swap) (np.scale 1 V_one) = Ok Hm) /\
  (forall Hm, np.add (np.neg D_swap) (np.scale 1 V_one) = Ok Hm ->
     nrows Hm <> ncols Hm -> r = Raise LinAlgError) /\
  (forall Hm e, np.add (np.neg D_swap) (np.scale 1 V_one) = Ok Hm ->
     nrows Hm = ncols Hm -> syevd_identity2 Hm = Raise e -> r = Raise e) /\
  (forall e, r = Raise e -> forall p, r <> Ok p).
Proof.
  apply (HO_solver_failures syevd_identity2 1 0%nat 1%nat D_swap V_one);
    reflexivity.
Defined.

(** ** The second-derivative matrix as an operator *)

Lemma at_or_zero_nat (v : list R) (i : nat) :
  at_or_zero v (Z.of_nat i) = nth i v 0.
Proof.
  unfold at_or_zero. destruct (Z.ltb_spec (Z.of_nat i) 0); [lia |].
  now rewrite Nat2Z.id.
Qed.

Lemma rsum_pick (n m : nat) (c : R) (p : nat -> bool) (f : nat -> R) :
  (m < n)%nat -> (forall k, (k < n)%nat -> p k = (k =? m)%nat) ->
  rsum n (fun k => (if p k then c else 0) * f k) = c * f m.
Proof.
  intros Hm Hp.
  rewrite (rsum_ext _ _ (fun k => delta m k * (c * f k))).
  - now apply rsum_delta.
  - intros k Hk. rewrite (Hp k Hk). unfold delta.
    rewrite (Nat.eqb_sym k m). destruct (m =? k)%nat; ring.
Qed.

Lemma rsum_none (n : nat) (c : R) (p : nat -> bool) (f : nat -> R) :
  (forall k, (k < n)%nat -> p k = false) ->
  rsum n (fun k => (if p k then c else 0) * f k) = 0.
Proof.
  intros Hp. apply rsum_zero. intros k Hk. rewrite (Hp k Hk). ring.
Qed.

(** Row [i] of the diagonal [+d] picks [v[i + d]]. *)
Lemma rsum_upper (n i d : nat) (c : R) (v : list R) :
  length v = n ->
  rsum n (fun k => (if (k =? i + d)%nat then c else 0) * nth k v 0)
  = c * at_or_zero v (Z.of_nat i + Z.of_nat d).
Proof.
  intros Hlen. rewrite <- Nat2Z.inj_add, at_or_zero_nat.
  destruct (Nat.lt_ge_cases (i + d) n) as [Hlt | Hge].
  - apply (rsum_pick n (i + d) c (fun k => (k =? i + d)%nat)); [exact Hlt |].
    reflexivity.
  - rewrite (nth_overflow v 0) by lia. rewrite Rmult_0_r.
    apply (rsum_none n c (fun k => (k =? i + d)%nat)).
    intros k Hk. apply Nat.eqb_neq. lia.
Qed.

(** Row [i] of the diagonal [-d] picks [v[i - d]], or nothing above the
    first row. *)
Lemma rsum_lower (n i d : nat) (c : R) (v : list R) :
  (i < n)%nat ->
  rsum n (fun k => (if (i =? k + d)%nat then c else 0) * nth k v 0)
  = c * at_or_zero v (Z.of_nat i - Z.of_nat d).
Proof.
  intros Hi. unfold at_or_zero.
  destruct (Z.ltb_spec (Z.of_nat i - Z.of_nat d) 0) as [Hneg | Hpos].
  - rewrite Rmult_0_r.
    apply (rsum_none n c (fun k => (i =? k + d)%nat)).
    intros k Hk. apply Nat.eqb_neq. lia.
  - replace (Z.to_nat (Z.of_nat i - Z.of_nat d)) with (i - d)%nat by lia.
    apply (rsum_pick n (i - d) c (fun k => (i =? k + d)%nat)); [lia |].
    intros k Hk.
    destruct (Nat.eqb_spec i (k + d)), (Nat.eqb_spec k (i - d));
      try reflexivity; lia.
Qed.

Lemma gsdm_apply (xgrid v : list R) (i : nat) :
  (2 <= length xgrid)%nat -> first_spacing xgrid <> 0 ->
  length v = length xgrid -> (i < length xgrid)%nat ->
  exists D2, generate_second_derivative_matrix xgrid = Ok D2 /\
    has_shape D2 (length xgrid) (length xgrid) /\
    mulvec D2 v i = stencil_at (first_spacing xgrid) v i.
Proof.
  intros HN Hdx Hlen Hi.
  destruct (gsdm_entries xgrid HN) as (D2 & E & [Hr Hc] & F).
  exists D2. split; [exact E |]. split; [split; assumption |].
  set (N := length xgrid) in *. set (dx := first_spacing xgrid) in *.
  unfold mulvec. rewrite Hc.
  rewrite (rsum_ext _ _ (fun k =>
     (if (k =? i)%nat then 1 * ((-5) / 2 / dx ^ 2) else 0) * nth k v 0
     + (if (k =? i + 1)%nat then 1 * 4 / 3 / dx ^ 2 else 0) * nth k v 0
     + (if (i =? k + 1)%nat then 1 * 4 / 3 / dx ^ 2 else 0) * nth k v 0
     + (if (k =? i + 2)%nat then 1 * ((-1) / (12 * dx ^ 2)) else 0) * nth k v 0
     + (if (i =? k + 2)%nat then 1 * ((-1) / (12 * dx ^ 2)) else 0) * nth k v 0))
    by (intros k Hk; rewrite (F i k Hi Hk); ring).
  rewrite !rsum_plus.
  rewrite (rsum_pick N i _ (fun k => (k =? i)%nat)) by (assumption || reflexivity).
  rewrite (rsum_upper N i 1), (rsum_upper N i 2) by exact Hlen.
  rewrite (rsum_lower N i 1), (rsum_lower N i 2) by exact Hi.
  change (Z.of_nat 1) with 1%Z. change (Z.of_nat 2) with 2%Z.
  unfold stencil_at. rewrite at_or_zero_nat. field. exact Hdx.
Qed.

Lemma nth_map_in_range (f : R -> R) (l : list R) (k : nat) :
  (k < length l)%nat -> nth k (map f l) 0 = f (nth k l 0).
Proof.
  intros Hk. rewrite (nth_indep _ 0 (f 0)) by (now rewrite length_map).
  apply map_nth.
Qed.

Lemma at_or_zero_sample (f : R -> R) (l : list R) (k : Z) :
  (0 <= k < Z.of_nat (length l))%Z ->
  at_or_zero (map f l) k = f (nth (Z.to_nat k) l 0).
Proof.
  intros Hk. unfold at_or_zero. destruct (Z.ltb_spec k 0); [lia |].
  apply nth_map_in_range. lia.
Qed.

Lemma uniform_nth (xgrid : list R) (dx : R) (i k : nat) :
  uniform xgrid dx -> (i + k < length xgrid)%nat ->
  nth (i + k) xgrid 0 = nth i xgrid 0 + INR k * dx.
Proof.
  intros Hu. induction k as [| k IH]; intros Hik.
  - rewrite Nat.add_0_r. simpl. lra.
  - rewrite Nat.add_succ_r, S_INR.
    pose proof (Hu (i + k)%nat ltac:(lia)) as Hstep.
    rewrite IH in Hstep by lia. lra.
Qed.

(** X1.  Applying the matrix of [generate_second_derivative_matrix] to a
    vector [v] of the grid's length gives, in every row, the five-point
    stencil of [v] with the entries that fall outside the grid read as zero;
    the spacing is [xgrid[1] - xgrid[0]].  This holds for every grid of at
    least two points, uniform or not. *)
Theorem second_derivative_apply (xgrid v : list R) :
  (2 <= length xgrid)%nat -> first_spacing xgrid <> 0 ->
  length v = length xgrid ->
  exists D2, generate_second_derivative_matrix xgrid = Ok D2 /\
    forall i, (i < length xgrid)%nat ->
      mulvec D2 v i = stencil_at (first_spacing xgrid) v i.
Proof.
  intros HN Hdx Hlen.
  destruct (gsdm_entries xgrid HN) as (D2 & E & _ & _).
  exists D2. split; [exact E |]. intros i Hi.
  destruct (gsdm_apply xgrid v i HN Hdx Hlen Hi) as (D2' & E' & _ & Happ).
  assert (D2' = D2) by congruence. subst D2'. exact Happ.
Qed.

Lemma gsdm_apply_uniform (xgrid v : list R) (dx : R) (i : nat) :
  (2 <= length xgrid)%nat -> uniform xgrid dx -> dx <> 0 ->
  length v = length xgrid -> (i < length xgrid)%nat ->
  exists D2, generate_second_derivative_matrix xgrid = Ok D2 /\
    mulvec D2 v i = stencil_at dx v i.
Proof.
  intros HN Hu Hdx Hlen Hi.
  pose proof (uniform_first_spacing xgrid dx HN Hu) as Hfs.
  destruct (gsdm_apply xgrid v i HN) as (D2 & E & _ & Happ);
    try assumption; [now rewrite Hfs |].
  exists D2. split; [exact E |]. now rewrite <- Hfs.
Qed.

Lemma monomial_derivative (a : R) (n : nat) (x : R) :
  derivable_pt_lim (fun y => a * y ^ n) x (a * (INR n * x ^ pred n)).
Proof.
  apply (derivable_pt_lim_scal (fun y => y ^ n) a x).
  apply derivable_pt_lim_pow.
Qed.

Lemma quintic_derivative (a0 a1 a2 a3 a4 a5 x : R) :
  derivable_pt_lim (quintic a0 a1 a2 a3 a4 a5) x (quintic_d a1 a2 a3 a4 a5 x).
Proof.
  replace (quintic_d a1 a2 a3 a4 a5 x)
    with (a0 * (INR 0 * x ^ pred 0) + a1 * (INR 1 * x ^ pred 1)
          + a2 * (INR 2 * x ^ pred 2) + a3 * (INR 3 * x ^ pred 3)
          + a4 * (INR 4 * x ^ pred 4) + a5 * (INR 5 * x ^ pred 5))
    by (unfold quintic_d; simpl; ring).
  apply (derivable_pt_lim_ext
           (fun y => a0 * y ^ 0 + a1 * y ^ 1 + a2 * y ^ 2 + a3 * y ^ 3
                     + a4 * y ^ 4 + a5 * y ^ 5)).
  - intros y. unfold quintic. ring.
  - repeat apply derivable_pt_lim_plus; apply monomial_derivative.
Qed.

Lemma quintic_second_derivative (a1 a2 a3 a4 a5 x : R) :
  derivable_pt_lim (quintic_d a1 a2 a3 a4 a5) x (quintic_dd a2 a3 a4 a5 x).
Proof.
  replace (quintic_dd a2 a3 a4 a5 x)
    with (quintic_d (2 * a2) (3 * a3) (4 * a4) (5 * a5) 0 x)
    by (unfold quintic_d, quintic_dd; ring).
  apply (derivable_pt_lim_ext
           (quintic a1 (2 * a2) (3 * a3) (4 * a4) (5 * a5) 0)).
  - intros y. unfold quintic, quintic_d. ring.
  - apply quintic_derivative.
Qed.

(** X2.  On a uniform grid of spacing [dx], in every row that keeps its whole
    stencil (rows 2 to N-3), the matrix applied to the samples of a
    polynomial of degree at most five gives the polynomial's second
    derivative at that grid point, exactly. *)
Theorem stencil_exact_on_quintics
    (xgrid : list R) (dx a0 a1 a2 a3 a4 a5 : R) (i : nat) :
  uniform xgrid dx -> dx <> 0 ->
  (2 <= i)%nat -> (i + 2 < length xgrid)%nat ->
  (exists D2, generate_second_derivative_matrix xgrid = Ok D2 /\
     mulvec D2 (map (quintic a0 a1 a2 a3 a4 a5) xgrid) i
     = quintic_dd a2 a3 a4 a5 (nth i xgrid 0)) /\
  (forall x, derivable_pt_lim (quintic a0 a1 a2 a3 a4 a5) x
               (quintic_d a1 a2 a3 a4 a5 x)) /\
  (forall x, derivable_pt_lim (quintic_d a1 a2 a3 a4 a5) x
               (quintic_dd a2 a3 a4 a5 x)).
Proof.
  intros Hu Hdx Hlo Hhi.
  split; [| split; [intros x; apply quintic_derivative
                   | intros x; apply quintic_second_derivative]].
  destruct (gsdm_apply_uniform xgrid (map (quintic a0 a1 a2 a3 a4 a5) xgrid)
              dx i) as (D2 & E & Happ);
    try assumption; [lia | now rewrite length_map | lia |].
  exists D2. split; [exact E |]. rewrite Happ.
  unfold stencil_at.
  rewrite !at_or_zero_sample by lia.
  replace (Z.to_nat (Z.of_nat i)) with i by lia.
  replace (Z.to_nat (Z.of_nat i - 1)) with (i - 1)%nat by lia.
  replace (Z.to_nat (Z.of_nat i + 1)) with (i + 1)%nat by lia.
  replace (Z.to_nat (Z.of_nat i - 2)) with (i - 2)%nat by lia.
  replace (Z.to_nat (Z.of_nat i + 2)) with (i + 2)%nat by lia.
  pose proof (uniform_nth xgrid dx (i - 2) 1 Hu ltac:(lia)) as H1.
  pose proof (uniform_nth xgrid dx (i - 2) 2 Hu ltac:(lia)) as H2.
  pose proof (uniform_nth xgrid dx (i - 2) 3 Hu ltac:(lia)) as H3.
  pose proof (uniform_nth xgrid dx (i - 2) 4 Hu ltac:(lia)) as H4.
  replace (i - 2 + 1)%nat with (i - 1)%nat in H1 by lia.
  replace (i - 2 + 2)%nat with i in H2 by lia.
  replace (i - 2 + 3)%nat with (i + 1)%nat in H3 by lia.
  replace (i - 2 + 4)%nat with (i + 2)%nat in H4 by lia.
  simpl INR in H1, H2, H3, H4.
  rewrite H1, H2, H3, H4.
  unfold quintic, quintic_dd. field. exact Hdx.
Qed.

(** X3.  The first and last two rows are cut: on a constant vector [c] they
    give [-5c/(4 dx^2)] (rows 0 and N-1) and [c/(12 dx^2)] (rows 1 and N-2),
    not the zero that every other row gives. *)
Theorem stencil_cut_rows_on_constant (xgrid : list R) (c : R) :
  (5 <= length xgrid)%nat -> first_spacing xgrid <> 0 ->
  let N := length xgrid in
  let dx := first_spacing xgrid in
  let v := map (fun _ => c) xgrid in
  exists D2, generate_second_derivative_matrix xgrid = Ok D2 /\
    mulvec D2 v 0 = - 5 * c / (4 * dx ^ 2) /\
    mulvec D2 v 1 = c / (12 * dx ^ 2) /\
    mulvec D2 v (N - 2) = c / (12 * dx ^ 2) /\
    mulvec D2 v (N - 1) = - 5 * c / (4 * dx ^ 2) /\
    forall i, (2 <= i)%nat -> (i + 2 < N)%nat -> mulvec D2 v i = 0.
Proof.
  intros HN Hdx N dx v.
  destruct (gsdm_entries xgrid) as (D2 & E & _ & _); [lia |].
  exists D2. split; [exact E |].
  assert (Hrow : forall i, (i < N)%nat -> mulvec D2 v i = stencil_at dx v i).
  { intros i Hi.
    destruct (gsdm_apply xgrid v i) as (D2' & E' & _ & Happ);
      try assumption; [lia | subst v; now rewrite length_map |].
    assert (D2' = D2) by congruence. subst D2'. exact Happ. }
  assert (Hin : forall k, (0 <= k < Z.of_nat N)%Z -> at_or_zero v k = c).
  { intros k Hk. subst v.
    now rewrite (at_or_zero_sample (fun _ => c)). }
  assert (Hout : forall k, (k < 0 \/ Z.of_nat N <= k)%Z -> at_or_zero v k = 0).
  { intros k Hk. unfold at_or_zero.
    destruct (Z.ltb_spec k 0); [reflexivity |].
    apply nth_overflow. subst v. rewrite length_map. fold N. lia. }
  assert (Hrows : forall i, (i < N)%nat ->
            mulvec D2 v i
            = (- 5 / 2 * c
               + 4 / 3 * ((if (i =? 0)%nat then 0 else c)
                          + (if (i + 1 <? N)%nat then c else 0))
               - 1 / 12 * ((if (i <? 2)%nat then 0 else c)
                           + (if (i + 2 <? N)%nat then c else 0))) / dx ^ 2).
  { intros i Hi. rewrite Hrow by exact Hi. unfold stencil_at.
    rewrite (Hin (Z.of_nat i)) by lia.
    destruct (Nat.eqb_spec i 0), (Nat.ltb_spec (i + 1) N),
      (Nat.ltb_spec i 2), (Nat.ltb_spec (i + 2) N); try lia;
      repeat match goal with
             | |- context [at_or_zero v ?k] =>
                 first [rewrite (Hin k) by lia | rewrite (Hout k) by lia]
             end; reflexivity. }
  repeat split.
  - rewrite Hrows by lia. simpl.
    destruct (Nat.ltb_spec 1 N), (Nat.ltb_spec 2 N); try lia.
    field. exact Hdx.
  - rewrite Hrows by lia. simpl.
    destruct (Nat.ltb_spec 2 N), (Nat.ltb_spec 3 N); try lia.
    field. exact Hdx.
  - rewrite Hrows by lia.
    destruct (Nat.eqb_spec (N - 2) 0), (Nat.ltb_spec (N - 2 + 1) N),
      (Nat.ltb_spec (N - 2) 2), (Nat.ltb_spec (N - 2 + 2) N); try lia.
    field. exact Hdx.
  - rewrite Hrows by lia.
    destruct (Nat.eqb_spec (N - 1) 0), (Nat.ltb_spec (N - 1 + 1) N),
      (Nat.ltb_spec (N - 1) 2), (Nat.ltb_spec (N - 1 + 2) N); try lia.
    field. exact Hdx.
  - intros i Hlo Hhi. rewrite Hrows by lia.
    destruct (Nat.eqb_spec i 0), (Nat.ltb_spec (i + 1) N),
      (Nat.ltb_spec i 2), (Nat.ltb_spec (i + 2) N); try lia.
    field. exact Hdx.
Qed.

(** ** The grid of the notebook *)

Lemma linspace_first_last (start stop : R) (m : nat) :
  let l := map (fun i => start + INR i * ((stop - start) / INR (S m)))
               (seq 0 (S m)) ++ [stop] in
  nth 0 l 0 = start /\ nth (S m) l 0 = stop.
Proof.
  intros l. subst l. split.
  - rewrite app_nth1 by (rewrite length_map, length_seq; lia).
    rewrite (nth_map_seq (fun i => start + INR i * _)) by lia.
    simpl. lra.
  - rewrite app_nth2 by (rewrite length_map, length_seq; lia).
    rewrite length_map, length_seq, Nat.sub_diag. reflexivity.
Qed.

Lemma buildGrid_first_last (x_max : R) (N : Z) (g : list R) :
  (2 <= N)%Z -> buildGrid x_max N = Ok g ->
  nth 0 g 0 = - x_max /\ nth (Z.to_nat N - 1) g 0 = x_max.
Proof.
  intros HN Eg.
  destruct (Z.to_nat N) as [| [| m]] eqn:En; [lia | lia |].
  assert (HNm : N = Z.of_nat (S (S m))) by lia.
  unfold buildGrid in Eg. rewrite HNm, linspace_two_or_more in Eg.
  injection Eg as <-.
  replace (S (S m) - 1)%nat with (S m) by lia.
  apply (linspace_first_last (- x_max) x_max m).
Qed.

Lemma buildGrid_spacing_times (x_max : R) (N : Z) :
  (2 <= N)%Z -> (IZR N - 1) * (2 * x_max / (IZR N - 1)) = 2 * x_max.
Proof.
  intros HN. apply IZR_le in HN. field. lra.
Qed.

(** X4.  For [N >= 2] the grid cell's [np.linspace(-x_max, x_max, N)] has
    [N] points, starts at [-x_max], ends at [x_max], has constant spacing
    [2 x_max / (N - 1)], and is symmetric about the origin: point [N-1-i] is
    the negative of point [i]. *)
Theorem buildGrid_samples (x_max : R) (N : Z) :
  (2 <= N)%Z ->
  let n := Z.to_nat N in
  let dx := 2 * x_max / (IZR N - 1) in
  exists g, buildGrid x_max N = Ok g /\
    length g = n /\
    nth 0 g 0 = - x_max /\ nth (n - 1) g 0 = x_max /\
    uniform g dx /\
    (forall i, (i < n)%nat -> nth i g 0 = - x_max + INR i * dx) /\
    (forall i, (i < n)%nat -> nth (n - 1 - i) g 0 = - nth i g 0).
Proof.
  intros HN n dx.
  destruct (buildGrid_nonneg x_max N) as (g & Eg & Hlen); [lia |].
  destruct (buildGrid_uniform x_max N g HN Eg) as [_ Hu].
  destruct (buildGrid_first_last x_max N g HN Eg) as [H0 Hlast].
  fold n in Hlen, Hlast. fold dx in Hu.
  assert (Hnth : forall i, (i < n)%nat -> nth i g 0 = - x_max + INR i * dx).
  { intros i Hi.
    rewrite <- H0. apply (uniform_nth g dx 0 i Hu). simpl. lia. }
  exists g. repeat split; try assumption.
  intros i Hi. rewrite !Hnth by lia.
  rewrite minus_INR, minus_INR by lia.
  assert (Hn : INR n = IZR N).
  { subst n. rewrite INR_IZR_INZ, Z2Nat.id by lia. reflexivity. }
  pose proof (buildGrid_spacing_times x_max N HN) as Hsp. fold dx in Hsp.
  rewrite Hn. simpl INR. lra.
Qed.

(** ** The builders together: the Hamiltonian of a grid *)

Lemma gpm_entries (xgrid : list R) :
  has_shape (generate_potential_matrix xgrid) (length xgrid) (length xgrid) /\
  forall i j,
    entry (generate_potential_matrix xgrid) i j
    = if (j =? i)%nat then nth i xgrid 0 * nth i xgrid 0 else 0.
Proof.
  split.
  - unfold generate_potential_matrix. apply diag_shape_of.
    unfold apow. rewrite length_map. simpl. lia.
  - intros i j. unfold generate_potential_matrix, np.diag. simpl.
    rewrite Nat.add_0_r, nth_apow2. reflexivity.
Qed.

Lemma gpm_symmetric (xgrid : list R) :
  symmetric (generate_potential_matrix xgrid).
Proof.
  destruct (gpm_entries xgrid) as [[Hr Hc] F].
  split; [congruence |]. intros i j Hi Hj. rewrite !F.
  destruct (Nat.eqb_spec j i) as [-> | Hne].
  - now rewrite Nat.eqb_refl.
  - destruct (Nat.eqb_spec i j); [congruence | reflexivity].
Qed.

(** The sum the solver forms from the two builders' matrices of one grid. *)
Lemma builders_sum (xgrid : list R) (alpha : R) :
  (2 <= length xgrid)%nat ->
  exists D2 Hm,
    generate_second_derivative_matrix xgrid = Ok D2 /\
    has_shape D2 (length xgrid) (length xgrid) /\
    symmetric D2 /\
    np.add (np.neg D2) (np.scale alpha (generate_potential_matrix xgrid))
    = Ok Hm /\
    has_shape Hm (length xgrid) (length xgrid) /\
    symmetric Hm /\
    agree Hm (hamiltonian alpha D2 (generate_potential_matrix xgrid)).
Proof.
  intros HN.
  destruct (gsdm_symmetric xgrid HN) as (D2 & E & [Dr Dc] & Dsym).
  destruct (gpm_entries xgrid) as [[Vr Vc] _].
  assert (HD : symmetric D2)
    by (split; [congruence | intros i j Hi Hj; apply Dsym; congruence]).
  assert (Hsh : same_shape D2 (generate_potential_matrix xgrid))
    by (split; congruence).
  destruct (hamiltonian_from_add alpha D2 _ Hsh) as (Hm & Eadd & Hag).
  exists D2, Hm. split; [exact E |]. split; [split; assumption |].
  split; [exact HD |]. split; [exact Eadd |].
  split; [destruct Hag as [[Hr Hc] _]; simpl in Hr, Hc; split; congruence |].
  split; [| exact Hag].
  apply (symmetric_agree (hamiltonian alpha D2 (generate_potential_matrix xgrid)));
    [now apply agree_sym |].
  apply hamiltonian_symmetric; [exact Hsh | exact HD | apply gpm_symmetric].
Qed.

(** X5.  The two builders fit the solver.  For every grid of at least two
    points, with the matrices of [generate_second_derivative_matrix] and
    [generate_potential_matrix] stored, the sum [-D2Mat + alpha*vpot] is
    formed without broadcasting, is square of the grid's size and symmetric;
    so [HO_solver] raises no [ValueError] and passes the square check of
    [eigh]: it raises what the decomposition raises, and when the
    decomposition returns [N] eigenvalues and an [N] by [N] matrix it returns
    the first eigenvalue and the first column, a vector of [N] components. *)
Theorem builders_feed_solver
    (syevd : matrix -> result (list R * matrix))
    (alpha : R) (xgrid : list R) (D2 : matrix) (d v : loc) (s : store) :
  (2 <= length xgrid)%nat ->
  generate_second_derivative_matrix xgrid = Ok D2 ->
  nth_error s d = Some D2 ->
  nth_error s v = Some (generate_potential_matrix xgrid) ->
  let N := length xgrid in
  exists Hm,
    np.add (np.neg D2) (np.scale alpha (generate_potential_matrix xgrid))
    = Ok Hm /\
    has_shape Hm N N /\ symmetric Hm /\
    (forall e, syevd Hm = Raise e ->
       outcome (HO_solver syevd alpha d v) s = Raise e) /\
    (forall w U, syevd Hm = Ok (w, U) -> length w = N -> has_shape U N N ->
       outcome (HO_solver syevd alpha d v) s = Ok (nth 0 w 0, column U 0) /\
       length (column U 0) = N).
Proof.
  intros HN E Hd Hv N. subst N.
  destruct (builders_sum xgrid alpha HN)
    as (D2' & Hm & E' & _ & _ & Eadd & [Hr Hc] & Hsym & _).
  assert (D2' = D2) by congruence. subst D2'.
  exists Hm. split; [exact Eadd |]. split; [split; assumption |].
  split; [exact Hsym |]. split.
  - intros e Esy. unfold outcome.
    rewrite (HO_solver_run _ _ _ _ _ _ _ Hd Hv).
    unfold HO_solver_trace. rewrite Eadd. unfold np.linalg.eigh.
    rewrite Hr, Hc, Nat.eqb_refl, Esy. reflexivity.
  - intros w U Esy Hlen [Ur Uc]. split.
    + apply (HO_solver_returns_first syevd alpha d v D2
               (generate_potential_matrix xgrid) Hm U w s);
        try assumption; try congruence; try lia.
      split; congruence.
    + unfold column. now rewrite length_map, length_seq.
Qed.

(** X6.  The matrix the solver decomposes acts on a vector as the
    discretised operator [-d2/dx2 + alpha x^2]: row [i] of [H v] is minus
    the five-point stencil of [v] (zero outside the grid) plus
    [alpha * x_i^2 * v_i]. *)
Theorem hamiltonian_apply (xgrid v : list R) (alpha : R) (i : nat) :
  (2 <= length xgrid)%nat -> first_spacing xgrid <> 0 ->
  length v = length xgrid -> (i < length xgrid)%nat ->
  exists D2 Hm,
    generate_second_derivative_matrix xgrid = Ok D2 /\
    np.add (np.neg D2) (np.scale alpha (generate_potential_matrix xgrid))
    = Ok Hm /\
    mulvec Hm v i
    = - stencil_at (first_spacing xgrid) v i
      + alpha * (nth i xgrid 0 * nth i xgrid 0) * nth i v 0.
Proof.
  intros HN Hdx Hlen Hi.
  destruct (builders_sum xgrid alpha HN)
    as (D2 & Hm & E & [Dr Dc] & _ & Eadd & [Hr Hc] & _ & [_ Hent]).
  exists D2, Hm. split; [exact E |]. split; [exact Eadd |].
  destruct (gsdm_apply xgrid v i HN Hdx Hlen Hi) as (D2' & E' & _ & Happ).
  assert (D2' = D2) by congruence. subst D2'.
  rewrite <- Happ. unfold mulvec. rewrite Hc, Dc.
  destruct (gpm_entries xgrid) as [_ FV].
  rewrite (rsum_ext _ _ (fun k =>
     -1 * (entry D2 i k * nth k v 0)
     + (if (k =? i)%nat then alpha * (nth i xgrid 0 * nth i xgrid 0) else 0)
       * nth k v 0)).
  - rewrite rsum_plus, rsum_scal.
    rewrite (rsum_pick (length xgrid) i _ (fun k => (k =? i)%nat))
      by (assumption || reflexivity).
    ring.
  - intros k Hk. rewrite Hent by congruence.
    unfold hamiltonian. cbn [entry]. rewrite FV.
    destruct (k =? i)%nat; ring.
Qed.

Lemma eqb_iff (a b c d : nat) :
  (a = b <-> c = d) -> (a =? b)%nat = (c =? d)%nat.
Proof.
  intros H. destruct (Nat.eqb_spec a b), (Nat.eqb_spec c d);
    try reflexivity; tauto.
Qed.

(** The second-derivative matrix reads the same from its last corner. *)
Lemma gsdm_centrosymmetric (xgrid : list R) :
  (2 <= length xgrid)%nat ->
  exists D2, generate_second_derivative_matrix xgrid = Ok D2 /\
    forall i j, (i < length xgrid)%nat -> (j < length xgrid)%nat ->
      entry D2 (length xgrid - 1 - i) (length xgrid - 1 - j) = entry D2 i j.
Proof.
  intros HN.
  destruct (gsdm_entries xgrid HN) as (D2 & E & _ & F).
  exists D2. split; [exact E |]. intros i j Hi Hj.
  set (N := length xgrid) in *.
  rewrite (F (N - 1 - i) (N - 1 - j))%nat by lia.
  rewrite (F i j Hi Hj).
  rewrite (eqb_iff (N - 1 - j) (N - 1 - i) j i) by lia.
  rewrite (eqb_iff (N - 1 - j) (N - 1 - i + 1) i (j + 1)) by lia.
  rewrite (eqb_iff (N - 1 - i) (N - 1 - j + 1) j (i + 1)) by lia.
  rewrite (eqb_iff (N - 1 - j) (N - 1 - i + 2) i (j + 2)) by lia.
  rewrite (eqb_iff (N - 1 - i) (N - 1 - j + 2) j (i + 2)) by lia.
  ring.
Qed.

(** X7.  On the notebook's grid the matrix the solver decomposes is
    unchanged by the reflection of the grid about the origin: entry
    [(N-1-i, N-1-j)] equals entry [(i, j)]. *)
Theorem hamiltonian_reflection (x_max alpha : R) (N : Z) :
  (2 <= N)%Z ->
  let n := Z.to_nat N in
  exists g D2 Hm,
    buildGrid x_max N = Ok g /\
    generate_second_derivative_matrix g = Ok D2 /\
    np.add (np.neg D2) (np.scale alpha (generate_potential_matrix g)) = Ok Hm /\
    has_shape Hm n n /\
    forall i j, (i < n)%nat -> (j < n)%nat ->
      entry Hm (n - 1 - i) (n - 1 - j) = entry Hm i j.
Proof.
  intros HN n.
  destruct (buildGrid_nonneg x_max N) as (g & Eg & Hlen); [lia |].
  fold n in Hlen.
  assert (Hmirror : forall i, (i < n)%nat -> nth (n - 1 - i) g 0 = - nth i g 0).
  { destruct (buildGrid_first_last x_max N g HN Eg) as [H0 _].
    destruct (buildGrid_uniform x_max N g HN Eg) as [_ Hu].
    pose proof (buildGrid_spacing_times x_max N HN) as Hsp.
    assert (Hn : INR n = IZR N)
      by (subst n; rewrite INR_IZR_INZ, Z2Nat.id by lia; reflexivity).
    intros i Hi.
    pose proof (uniform_nth g _ 0 (n - 1 - i) Hu ltac:(simpl; lia)) as Ha.
    pose proof (uniform_nth g _ 0 i Hu ltac:(simpl; lia)) as Hb.
    rewrite Nat.add_0_l in Ha, Hb. rewrite Ha, Hb.
    rewrite H0, minus_INR, minus_INR, Hn by lia. simpl INR. lra. }
  destruct (builders_sum g alpha)
    as (D2 & Hm & E & _ & _ & Eadd & Hsh & _ & [_ Hent]); [lia |].
  rewrite Hlen in Hsh. destruct Hsh as [Hr Hc].
  exists g, D2, Hm. split; [exact Eg |]. split; [exact E |].
  split; [exact Eadd |]. split; [split; assumption |].
  intros i j Hi Hj.
  destruct (gsdm_centrosymmetric g) as (D2' & E' & Hcs); [lia |].
  assert (D2' = D2) by congruence. subst D2'. rewrite Hlen in Hcs.
  destruct (gpm_entries g) as [_ FV].
  rewrite !Hent by lia. unfold hamiltonian. cbn [entry].
  rewrite (Hcs i j Hi Hj), !FV.
  rewrite (eqb_iff (n - 1 - j) (n - 1 - i) j i) by lia.
  rewrite (Hmirror i Hi). destruct (j =? i)%nat; ring.
Qed.

(** ** The notebook's cells, run *)



Lemma notebook_run (syevd : matrix -> result (list R * matrix))
    (x_max alpha : R) (N : Z) (s : store) (g : list R) (D2 : matrix) :
  buildGrid x_max N = Ok g ->
  generate_second_derivative_matrix g = Ok D2 ->
  notebook syevd x_max N alpha s
  = match HO_solver syevd alpha (length s) (length (s ++ [D2]))
            ((s ++ [D2]) ++ [generate_potential_matrix g]) with
    | (Ok r, s') => (Ok (g, snd r), s')
    | (Raise e, s') => (Raise e, s')
    end.
Proof.
  intros Eg E. unfold notebook, grid_cell, plot_cell. cbn [bind M_monad ret].
  unfold lift at 1. rewrite Eg. unfold lift at 1. rewrite E.
  unfold alloc at 1. unfold alloc at 1.
  destruct (HO_solver syevd alpha (length s) (length (s ++ [D2]))
              ((s ++ [D2]) ++ [generate_potential_matrix g]))
    as [[r | e] s']; reflexivity.
Qed.


(** X9.  For [N_grid >= 2], whenever the decomposition converges on the
    matrix built from the grid and meets the contract of [eigh], the two
    cells hand to the plot the grid and a vector of the same length [N_grid],
    and that vector is an eigenvector for the least eigenvalue of
    [-D20 + alpha * V0]. *)
Theorem notebook_ground_state (syevd : matrix -> result (list R * matrix))
    (x_max alpha : R) (N : Z) (s : store) :
  (2 <= N)%Z ->
  (forall g D2 Hm,
     buildGrid x_max N = Ok g ->
     generate_second_derivative_matrix g = Ok D2 ->
     np.add (np.neg D2) (np.scale alpha (generate_potential_matrix g)) = Ok Hm ->
     exists w U, syevd Hm = Ok (w, U) /\ eigh_contract Hm w U) ->
  exists g D2 phi lam,
    buildGrid x_max N = Ok g /\
    generate_second_derivative_matrix g = Ok D2 /\
    outcome (notebook syevd x_max N alpha) s = Ok (g, phi) /\
    length g = Z.to_nat N /\ length phi = Z.to_nat N /\
    min_eigenvalue (hamiltonian alpha D2 (generate_potential_matrix g)) lam /\
    eigenpair (hamiltonian alpha D2 (generate_potential_matrix g)) lam phi.
Proof.
  intros HN Hlapack.
  destruct (buildGrid_nonneg x_max N) as (g & Eg & Hlen); [lia |].
  destruct (builders_sum g alpha)
    as (D2 & Hm & E & _ & _ & Eadd & [Hr Hc] & Hsym & Hag); [lia |].
  destruct (Hlapack g D2 Hm Eg E Eadd) as (w & U & Esy & Hct).
  assert (Hpos : (0 < nrows Hm)%nat) by lia.
  exists g, D2, (column U 0), (nth 0 w 0).
  split; [exact Eg |]. split; [exact E |]. split; [| split; [exact Hlen |]].
  - unfold outcome. rewrite (notebook_run syevd x_max alpha N s g D2 Eg E).
    pose proof (HO_solver_returns_first syevd alpha (length s)
                  (length (s ++ [D2])) D2 (generate_potential_matrix g)
                  Hm U w ((s ++ [D2]) ++ [generate_potential_matrix g])) as Hret.
    unfold outcome in Hret.
    destruct (HO_solver syevd alpha (length s) (length (s ++ [D2]))
                ((s ++ [D2]) ++ [generate_potential_matrix g])) as [r s'].
    simpl in Hret. rewrite Hret; [reflexivity | | | | | | | |].
    + apply nth_error_extend, nth_error_fresh.
    + apply nth_error_fresh.
    + exact Eadd.
    + congruence.
    + exact Hpos.
    + exact Esy.
    + apply (ec_length _ _ _ Hct).
    + apply (ec_shape _ _ _ Hct).
  - split.
    + rewrite (column_length Hm w U Hct). congruence.
    + split.
      * apply (min_eigenvalue_agree Hm); [exact Hag |].
        now apply (first_is_min_eigenvalue Hm w U).
      * apply (eigenpair_agree Hm); [exact Hag |].
        now apply (column_eigenpair Hm w U).
Qed.

(** ** Every outcome of the solver *)

Lemma add_raises_value_error (A B : matrix) (e : exn) :
  np.add A B = Raise e -> e = ValueError /\ ~ broadcastable A B.
Proof.
  unfold np.add, broadcastable. intros H.
  destruct (np.bdim (nrows A) (nrows B)) as [r |].
  - destruct (np.bdim (ncols A) (ncols B)) as [c |]; [discriminate |].
    split; [congruence | intros [_ Hc]; now apply Hc].
  - split; [congruence | intros [Hr _]; now apply Hr].
Qed.

(** X10.  The outcomes of [HO_solver] on stored operands, all of them.  It
    raises only in three ways: [ValueError] when the shapes cannot be
    broadcast together; whatever [eigh] raises on the sum; [IndexError] when
    [eigh] returns no eigenvalue or a matrix without columns.  When it
    returns, the sum was formed and square, and the result is the first
    eigenvalue [eigh] listed and the first column of its matrix. *)
Theorem HO_solver_outcomes
    (syevd : matrix -> result (list R * matrix))
    (alpha : R) (D2Mat vpot : loc) (D V : matrix) (s : store) :
  nth_error s D2Mat = Some D -> nth_error s vpot = Some V ->
  let r := outcome (HO_solver syevd alpha D2Mat vpot) s in
  let sum := np.add (np.neg D) (np.scale alpha V) in
  (forall e, r = Raise e ->
     (e = ValueError /\ ~ broadcastable D V) \/
     (exists Hm, sum = Ok Hm /\ np.linalg.eigh syevd Hm = Raise e) \/
     (e = IndexError /\
      exists Hm w U, sum = Ok Hm /\ np.linalg.eigh syevd Hm = Ok (w, U) /\
        (w = [] \/ ncols U = 0%nat))) /\
  (forall lam x, r = Ok (lam, x) ->
     exists Hm w U, sum = Ok Hm /\ nrows Hm = ncols Hm /\
       syevd Hm = Ok (w, U) /\
       w <> [] /\ lam = nth 0 w 0 /\ x = column U 0).
Proof.
  intros Hd Hv r sum.
  assert (Hr : r = fst (HO_solver_trace syevd alpha D V s)).
  { subst r. unfold outcome. now rewrite (HO_solver_run _ _ _ _ _ _ _ Hd Hv). }
  unfold HO_solver_trace in Hr. fold sum in Hr.
  destruct sum as [Hm | e0] eqn:Esum.
  - destruct (np.linalg.eigh syevd Hm) as [[w U] | e1] eqn:Eeigh.
    + destruct w as [| w0 w'].
      * simpl in Hr. split.
        -- intros e He. right. right. split; [congruence |].
           exists Hm, [], U. repeat split; try assumption. now left.
        -- intros lam x Hx. congruence.
      * cbn [getitem nth_error] in Hr. unfold getrow in Hr.
        cbn [np.transpose nrows ncols entry] in Hr.
        destruct (Nat.ltb_spec 0 (ncols U)) as [Hpos | Hz].
        -- simpl in Hr. split; [intros e He; congruence |].
           intros lam x Hx. rewrite Hr in Hx. injection Hx as <- <-.
           exists Hm, (w0 :: w'), U.
           unfold np.linalg.eigh in Eeigh.
           destruct (Nat.eqb_spec (nrows Hm) (ncols Hm)); [| discriminate].
           repeat split; try assumption; discriminate.
        -- simpl in Hr. split.
           ++ intros e He. right. right. split; [congruence |].
              exists Hm, (w0 :: w'), U. repeat split; try assumption.
              right. lia.
           ++ intros lam x Hx. congruence.
    + simpl in Hr. split.
      * intros e He. right. left. exists Hm. split; [reflexivity | congruence].
      * intros lam x Hx. congruence.
  - simpl in Hr. split.
    + intros e He. left.
      destruct (add_raises_value_error _ _ _ Esum) as [-> Hnb].
      split; [congruence | exact Hnb].
    + intros lam x Hx. congruence.
Qed.

(** X11.  The stencil formula of the second-derivative matrix holds on every
    grid of at least two points, uniform or not, with the spacing read from
    the first interval; on grids of two to four points the diagonals that do
    not fit are simply absent. *)
Theorem second_derivative_any_grid (xgrid : list R) :
  (2 <= length xgrid)%nat -> nth 1 xgrid 0 - nth 0 xgrid 0 <> 0 ->
  exists D2, generate_second_derivative_matrix xgrid = Ok D2 /\
    has_shape D2 (length xgrid) (length xgrid) /\
    forall i j, (i < length xgrid)%nat -> (j < length xgrid)%nat ->
      entry D2 i j
      = five_point_stencil (nth 1 xgrid 0 - nth 0 xgrid 0) i j.
Proof.
  intros HN Hdx.
  destruct (gsdm_entries xgrid HN) as (D2 & E & Hs & F).
  exists D2. split; [exact E |]. split; [exact Hs |].
  intros i j Hi Hj. rewrite (F i j Hi Hj).
  now apply five_diagonals_stencil.
Qed.

(** ** The added theorems at concrete inputs *)

Lemma inv_sqrt2_sqr : inv_sqrt2 * inv_sqrt2 = 1 / 2.
Proof.
  unfold inv_sqrt2. rewrite <- Rinv_mult, sqrt_sqrt by lra. lra.
Qed.

Lemma grid5_first_spacing : first_spacing grid5 <> 0.
Proof. unfold first_spacing. simpl. lra. Qed.

(** The Hamiltonian of the notebook on two points, [x_max = 1], [alpha = 2]. *)
Lemma two_point_hamiltonian (g : list R) (D2 Hm : matrix) :
  buildGrid 1 2 = Ok g ->
  generate_second_derivative_matrix g = Ok D2 ->
  np.add (np.neg D2) (np.scale 2 (generate_potential_matrix g)) = Ok Hm ->
  has_shape Hm 2 2 /\
  entry Hm 0 0 = 21 / 8 /\ entry Hm 0 1 = - 1 / 3 /\
  entry Hm 1 0 = - 1 / 3 /\ entry Hm 1 1 = 21 / 8.
Proof.
  intros Eg E Eadd.
  destruct (buildGrid_nonneg 1 2) as (g' & Eg' & Hlen); [lia |].
  assert (g' = g) by congruence. subst g'.
  change (Z.to_nat 2) with 2%nat in Hlen.
  destruct (buildGrid_first_last 1 2 g) as [H0 H1]; [lia | exact Eg |].
  change (Z.to_nat 2 - 1)%nat with 1%nat in H1.
  destruct (builders_sum g 2) as (D2' & Hm' & E' & _ & _ & Eadd' & Hsh & _ & [_ Hent]);
    [lia |].
  assert (D2' = D2) by congruence. subst D2'.
  assert (Hm' = Hm) by congruence. subst Hm'.
  rewrite Hlen in Hsh. split; [exact Hsh |]. destruct Hsh as [Hr Hc].
  destruct (gsdm_entries g) as (D2' & E'' & _ & F); [lia |].
  assert (D2' = D2) by congruence. subst D2'.
  destruct (gpm_entries g) as [_ FV].
  assert (Hdx : first_spacing g = 2) by (unfold first_spacing; lra).
  rewrite Hlen, Hdx in F.
  repeat split; rewrite Hent by lia; unfold hamiltonian; cbn [entry];
    rewrite F, FV by lia; simpl; rewrite ?H0, ?H1; field.
Qed.

Lemma syevd_two_contract (g : list R) (D2 Hm : matrix) :
  buildGrid 1 2 = Ok g ->
  generate_second_derivative_matrix g = Ok D2 ->
  np.add (np.neg D2) (np.scale 2 (generate_potential_matrix g)) = Ok Hm ->
  exists w U, syevd_two Hm = Ok (w, U) /\ eigh_contract Hm w U.
Proof.
  intros Eg E Eadd.
  destruct (two_point_hamiltonian g D2 Hm Eg E Eadd)
    as ([Hr Hc] & H00 & H01 & H10 & H11).
  exists [55 / 24; 71 / 24], U_two. split; [reflexivity |].
  pose proof inv_sqrt2_sqr as Hsq.
  constructor; rewrite ?Hr.
  - reflexivity.
  - split; reflexivity.
  - intros i j Hij Hj.
    destruct i as [| [| i]], j as [| [| j]]; try lia; simpl; lra.
  - intros i j Hi Hj. two_indices i j Hi Hj; simpl;
      rewrite ?H00, ?H01, ?H10, ?H11; lra.
  - intros i j Hi Hj. two_indices i j Hi Hj; unfold delta; simpl; nra.
  - intros i j Hi Hj. two_indices i j Hi Hj; unfold delta; simpl; nra.
Qed.

Lemma second_derivative_apply_witness :
  exists D2, generate_second_derivative_matrix grid5 = Ok D2 /\
    forall i, (i < length grid5)%nat ->
      mulvec D2 [1; 2; 3; 4; 5] i
      = stencil_at (first_spacing grid5) [1; 2; 3; 4; 5] i.
Proof.
  apply (second_derivative_apply grid5 [1; 2; 3; 4; 5]);
    [simpl; lia | exact grid5_first_spacing | reflexivity].
Defined.

Lemma stencil_exact_on_quintics_witness :
  exists D2, generate_second_derivative_matrix grid5 = Ok D2 /\
    mulvec D2 (map (quintic 1 1 1 1 1 1) grid5) 2
    = quintic_dd 1 1 1 1 (nth 2 grid5 0).
Proof.
  apply (proj1 (stencil_exact_on_quintics grid5 1 1 1 1 1 1 1 2
                  grid5_uniform ltac:(lra) ltac:(lia) ltac:(simpl; lia))).
Defined.

Lemma stencil_cut_rows_on_constant_witness :
  let N := length grid5 in
  let dx := first_spacing grid5 in
  let v := map (fun _ => 1) grid5 in
  exists D2, generate_second_derivative_matrix grid5 = Ok D2 /\
    mulvec D2 v 0 = - 5 * 1 / (4 * dx ^ 2) /\
    mulvec D2 v 1 = 1 / (12 * dx ^ 2) /\
    mulvec D2 v (N - 2) = 1 / (12 * dx ^ 2) /\
    mulvec D2 v (N - 1) = - 5 * 1 / (4 * dx ^ 2) /\
    forall i, (2 <= i)%nat -> (i + 2 < N)%nat -> mulvec D2 v i = 0.
Proof.
  apply (stencil_cut_rows_on_constant grid5 1);
    [simpl; lia | exact grid5_first_spacing].
Defined.

Lemma buildGrid_samples_witness :
  let n := Z.to_nat 5 in
  let dx := 2 * 2 / (IZR 5 - 1) in
  exists g, buildGrid 2 5 = Ok g /\
    length g = n /\
    nth 0 g 0 = - 2 /\ nth (n - 1) g 0 = 2 /\
    uniform g dx /\
    (forall i, (i < n)%nat -> nth i g 0 = - 2 + INR i * dx) /\
    (forall i, (i < n)%nat -> nth (n - 1 - i) g 0 = - nth i g 0).
Proof.
  apply (buildGrid_samples 2 5). lia.
Defined.

Lemma buildGrid_stencil_witness :
  exists g D2,
    buildGrid 2 5 = Ok g /\
    generate_second_derivative_matrix g = Ok D2 /\
    has_shape D2 (Z.to_nat 5) (Z.to_nat 5) /\
    forall i j, (i < Z.to_nat 5)%nat -> (j < Z.to_nat 5)%nat ->
      entry D2 i j = five_point_stencil (2 * 2 / (IZR 5 - 1)) i j.
Proof.
  apply (buildGrid_stencil 2 5); [lia | lra].
Defined.

Lemma builders_feed_solver_witness :
  exists D2 Hm,
    generate_second_derivative_matrix grid5 = Ok D2 /\
    np.add (np.neg D2) (np.scale 2 (generate_potential_matrix grid5)) = Ok Hm /\
    has_shape Hm 5 5 /\ symmetric Hm /\
    (forall e, syevd_ex Hm = Raise e ->
       outcome (HO_solver syevd_ex 2 0%nat 1%nat)
         [D2; generate_potential_matrix grid5] = Raise e) /\
    (forall w U, syevd_ex Hm = Ok (w, U) -> length w = 5%nat ->
       has_shape U 5 5 ->
       outcome (HO_solver syevd_ex 2 0%nat 1%nat)
         [D2; generate_potential_matrix grid5] = Ok (nth 0 w 0, column U 0) /\
       length (column U 0) = 5%nat).
Proof.
  destruct (gsdm_entries grid5) as (D2 & E & _ & _); [simpl; lia |].
  exists D2.
  destruct (builders_feed_solver syevd_ex 2 grid5 D2 0%nat 1%nat
              [D2; generate_potential_matrix grid5])
    as (Hm & Eadd & Hs & Hsym & Hraise & Hret);
    [simpl; lia | exact E | reflexivity | reflexivity |].
  exists Hm.
  split; [exact E |]. split; [exact Eadd |]. split; [exact Hs |].
  split; [exact Hsym |]. split; [exact Hraise | exact Hret].
Defined.

Lemma hamiltonian_apply_witness :
  exists D2 Hm,
    generate_second_derivative_matrix grid5 = Ok D2 /\
    np.add (np.neg D2) (np.scale 2 (generate_potential_matrix grid5)) = Ok Hm /\
    mulvec Hm [1; 2; 3; 4; 5] 2
    = - stencil_at (first_spacing grid5) [1; 2; 3; 4; 5] 2
      + 2 * (nth 2 grid5 0 * nth 2 grid5 0) * nth 2 [1; 2; 3; 4; 5] 0.
Proof.
  apply (hamiltonian_apply grid5 [1; 2; 3; 4; 5] 2 2);
    [simpl; lia | exact grid5_first_spacing | reflexivity | simpl; lia].
Defined.

Lemma hamiltonian_reflection_witness :
  let n := Z.to_nat 5 in
  exists g D2 Hm,
    buildGrid 2 5 = Ok g /\
    generate_second_derivative_matrix g = Ok D2 /\
    np.add (np.neg D2) (np.scale 2 (generate_potential_matrix g)) = Ok Hm /\
    has_shape Hm n n /\
    forall i j, (i < n)%nat -> (j < n)%nat ->
      entry Hm (n - 1 - i) (n - 1 - j) = entry Hm i j.
Proof.
  apply (hamiltonian_reflection 2 2 5). lia.
Defined.


Lemma notebook_ground_state_witness :
  exists g D2 phi lam,
    buildGrid 1 2 = Ok g /\
    generate_second_derivative_matrix g = Ok D2 /\
    outcome (notebook syevd_two 1 2 2) [] = Ok (g, phi) /\
    length g = Z.to_nat 2 /\ length phi = Z.to_nat 2 /\
    min_eigenvalue (hamiltonian 2 D2 (generate_potential_matrix g)) lam /\
    eigenpair (hamiltonian 2 D2 (generate_potential_matrix g)) lam phi.
Proof.
  apply (notebook_ground_state syevd_two 1 2 2 []);
    [lia | exact syevd_two_contract].
Defined.

Lemma HO_solver_outcomes_witness :
  let r := outcome (HO_solver syevd_ex 1 0%nat 1%nat) [D_ex; V_ex] in
  let sum := np.add (np.neg D_ex) (np.scale 1 V_ex) in
  (forall e, r = Raise e ->
     (e = ValueError /\ ~ broadcastable D_ex V_ex) \/
     (exists Hm, sum = Ok Hm /\ np.linalg.eigh syevd_ex Hm = Raise e) \/
     (e = IndexError /\
      exists Hm w U, sum = Ok Hm /\ np.linalg.eigh syevd_ex Hm = Ok (w, U) /\
        (w = [] \/ ncols U = 0%nat))) /\
  (forall lam x, r = Ok (lam, x) ->
     exists Hm w U, sum = Ok Hm /\ nrows Hm = ncols Hm /\
       syevd_ex Hm = Ok (w, U) /\
       w <> [] /\ lam = nth 0 w 0 /\ x = column U 0).
Proof.
  apply (HO_solver_outcomes syevd_ex 1 0%nat 1%nat D_ex V_ex); reflexivity.
Defined.

Lemma second_derivative_any_grid_witness :
  exists D2, generate_second_derivative_matrix [0; 1; 3] = Ok D2 /\
    has_shape D2 3 3 /\
    forall i j, (i < 3)%nat -> (j < 3)%nat ->
      entry D2 i j = five_point_stencil (1 - 0) i j.
Proof.
  apply (second_derivative_any_grid [0; 1; 3]); [simpl; lia | simpl; lra].
Defined.

Lemma HO_solver_empty_raises_witness :
  outcome (HO_solver syevd_empty 2 0%nat 1%nat) [empty_matrix; empty_matrix]
  = Raise IndexError.
Proof.
  apply (HO_solver_empty_raises syevd_empty 2 0%nat 1%nat
           empty_matrix empty_matrix empty_matrix);
    [reflexivity | reflexivity | split; reflexivity | split; reflexivity
    | intros; reflexivity].
Defined.
